(** * go-learning-book: properties of the chapter programs

    A shallow embedding of the parts of the chapter programs that the
    specification talks about: the statements that open [main] in chapters 2
    and 4, the range loops over a map of chapter 6, the [Person] methods of
    chapters 7 and 9, the bubble-sort helpers and the [File] type of chapter
    8, the [Config] singleton of chapter 9, and the error-handling functions
    of chapter 10.

    Go values are modelled as follows.  An [int] is a [Z], with the 64-bit
    wrap-around written out where the code does arithmetic; a [string] is a
    Rocq [string] (a sequence of bytes); a slice is the [list] of its
    elements, an index expression being a partial lookup (Go panics out of
    range); a map is a [gmap]; a pointer is an address into an explicit heap;
    the standard output and standard error streams are strings that only
    grow; a panic is a result of its own, which [defer] and [recover] can
    turn back into a return. *)

From Stdlib Require Import ZArith Lia.
From stdpp Require Import base option list sorting strings gmap pretty.

Local Open Scope Z_scope.

(** ** Go's [int] *)

Module Go.

(** [int] is the 64-bit signed integer type of the platforms the course
    targets; arithmetic wraps around silently. *)
Definition int_min : Z := - 2 ^ 63.
Definition int_max : Z := 2 ^ 63 - 1.

Definition wrap (z : Z) : Z := (z + 2 ^ 63) mod 2 ^ 64 - 2 ^ 63.

Definition int_add (x y : Z) : Z := wrap (x + y).

(** [x / y] for a nonzero [y]: the quotient truncated toward zero, wrapped
    (only [int_min / -1] overflows). *)
Definition int_quo (x y : Z) : Z := wrap (Z.quot x y).

(** [fmt]'s [%t]. *)
Definition fmt_bool (b : bool) : string := if b then "true" else "false".

(** [fmt]'s [%d] and [%v] of an [int]. *)
Definition fmt_int (z : Z) : string := pretty z.

End Go.

(** ** Chapters 2 and 4: the constant expressions at the head of [main] *)

Module GoExpr.

(** The kinds of untyped constant that the literals of these statements
    have. *)
Inductive kind : Type :=
  | UntypedInt
  | UntypedString.

Inductive binop : Type :=
  | Add
  | Sub
  | Mul
  | Quo.

Inductive expr : Type :=
  | StringLit (s : string)
  | IntLit (n : Z)
  | Binary (op : binop) (x y : expr).

(** The kind of a constant expression, if it has one.  The arithmetic
    operators apply to numeric operands, and [+] also to strings; the
    operands of a binary operator must be of one kind. *)
Fixpoint kind_of (e : expr) : option kind :=
  match e with
  | StringLit _ => Some UntypedString
  | IntLit _ => Some UntypedInt
  | Binary op x y =>
      kx ← kind_of x;
      ky ← kind_of y;
      match kx, ky, op with
      | UntypedInt, UntypedInt, _ => Some UntypedInt
      | UntypedString, UntypedString, Add => Some UntypedString
      | _, _, _ => None
      end
  end.

(** The value of a constant expression that has a kind; [Quo] by zero has
    none. *)
Inductive value : Type :=
  | IntVal (n : Z)
  | StringVal (s : string).

Fixpoint eval (e : expr) : option value :=
  match e with
  | StringLit s => Some (StringVal s)
  | IntLit n => Some (IntVal n)
  | Binary op x y =>
      vx ← eval x;
      vy ← eval y;
      match vx, vy, op with
      | IntVal a, IntVal b, Add => Some (IntVal (a + b))
      | IntVal a, IntVal b, Sub => Some (IntVal (a - b))
      | IntVal a, IntVal b, Mul => Some (IntVal (a * b))
      | IntVal a, IntVal b, Quo => if b =? 0 then None else Some (IntVal (Z.quot a b))
      | StringVal a, StringVal b, Add => Some (StringVal (a +:+ b))
      | _, _, _ => None
      end
  end.

(** A statement [fmt.Println(args...)]; the parameters of [Println] are of
    type [interface{}], so any argument that has a kind is accepted. *)
Inductive stmt : Type :=
  | Println (args : list expr).

Definition well_typed (s : stmt) : bool :=
  match s with
  | Println args => forallb (λ e, bool_decide (is_Some (kind_of e))) args
  end.

(** The two statements that open [main] in chapter 2. *)
Definition chapter2_main_head : list stmt :=
  [Println [StringLit "🐹 Go Variables and Types - Chapter 2 🐹"];
   Println [Binary Mul (StringLit "=") (IntLit 50)]].

(** The two statements that open [main] in chapter 4. *)
Definition chapter4_main_head : list stmt :=
  [Println [StringLit "🐹 Go Functions - Chapter 4 🐹"];
   Println [Binary Mul (StringLit "=") (IntLit 50)]].

End GoExpr.

(** ** Chapter 6: range loops over a map *)

Module Chapter6.
Import Go.

Definition newline : string := "
".

(** The map of [section3_WorkingWithMaps]. *)
Definition bookRatings : gmap string Z :=
  list_to_map
    [("Go Programming", 5); ("Python Basics", 4); ("JavaScript Guide", 3);
     ("Rust Tutorial", 5); ("Java Reference", 2)].

(** A [range] loop over a map visits every entry once, in an order that the
    runtime picks for that loop. *)
Definition iteration_order (m : gmap string Z) (order : list (string * Z)) : Prop :=
  order ≡ₚ map_to_list m.

(** [for book, rating := range bookRatings { fmt.Printf(...) }]: the texts
    printed, in the order [order] of the visit. *)
Definition all_books (order : list (string * Z)) : list string :=
  (λ entry, "  " +:+ entry.1 +:+ ": " +:+ fmt_int entry.2 +:+ " stars" +:+ newline)
    <$> order.

(** [for book := range bookRatings { ... }]. *)
Definition book_titles (order : list (string * Z)) : list string :=
  (λ entry, "  " +:+ entry.1 +:+ newline) <$> order.

(** [for _, rating := range bookRatings { ... }]. *)
Definition just_ratings (order : list (string * Z)) : list string :=
  (λ entry, "  " +:+ fmt_int entry.2 +:+ " stars" +:+ newline) <$> order.

(** The three loops of [section3_WorkingWithMaps] with the lines printed
    around them: every text written to standard output, in order. *)
Definition section3_range_loops (order1 order2 order3 : list (string * Z))
    : list string :=
  ["Range loops over maps:" +:+ newline;
   newline +:+ "All books and ratings:" +:+ newline]
  ++ all_books order1
  ++ [newline +:+ "Just the book titles:" +:+ newline]
  ++ book_titles order2
  ++ [newline +:+ "Just the ratings:" +:+ newline]
  ++ just_ratings order3.

(** Standard output after the texts were written. *)
Definition written (texts : list string) : string := String.concat "" texts.

(** The text on standard output is the same in every run, whatever orders
    the runtime picks. *)
Definition range_output_is_fixed : Prop :=
  ∀ o1 o2 o3 o1' o2' o3',
    iteration_order bookRatings o1 → iteration_order bookRatings o2 →
    iteration_order bookRatings o3 → iteration_order bookRatings o1' →
    iteration_order bookRatings o2' → iteration_order bookRatings o3' →
    written (section3_range_loops o1 o2 o3) =
    written (section3_range_loops o1' o2' o3').

End Chapter6.

(** ** Chapter 7: [Person] with value receivers *)

Module Chapter7.
Import Go.

Record Person : Type := mkPerson {
  Name : string;
  Age : Z;
  Email : string;
  IsActive : bool;
}.

(** [fmt.Printf("%+v", p)] of a [Person]. *)
Definition fmt_Person (p : Person) : string :=
  "{Name:" +:+ Name p +:+ " Age:" +:+ fmt_int (Age p) +:+ " Email:" +:+ Email p
  +:+ " IsActive:" +:+ fmt_bool (IsActive p) +:+ "}".

(** [func (p Person) Introduce()]: the text it prints. *)
Definition Introduce (p : Person) : string :=
  "Hi, I'm " +:+ Name p +:+ " and I'm " +:+ fmt_int (Age p) +:+ " years old." +:+ "
".

(** [func (p Person) HaveBirthday()].  The receiver [p] is the method's own
    variable, initialised with a copy of the value the method is called on;
    the result is that variable when the method returns, and the text
    printed. *)
Definition HaveBirthday (p : Person) : Person * string :=
  let p := mkPerson (Name p) (int_add (Age p) 1) (Email p) (IsActive p) in
  (p, "Happy birthday! " +:+ Name p +:+ " is now " +:+ fmt_int (Age p)
      +:+ " years old." +:+ "
").

(** The statement [person.HaveBirthday()] on a variable [person]: the value
    of [person] after the statement, and the text printed.  The callee's
    copy is dropped when the method returns. *)
Definition call_HaveBirthday (person : Person) : Person * string :=
  let '(_, out) := HaveBirthday person in (person, out).

(** The first statements of [section2_Methods], after its two headers:
    the final value of the variable [person] and the text printed. *)
Definition section2_Methods_birthday : Person * string :=
  let person := mkPerson "Alice" 25 "alice@example.com" true in
  let out1 := Introduce person in
  let '(person, out2) := call_HaveBirthday person in
  let out3 := "After birthday: " +:+ fmt_Person person +:+ "
" in
  (person, out1 +:+ out2 +:+ out3).

End Chapter7.

(** ** Chapter 8: the bubble-sort helpers [sortInts] and [sortStrings] *)

Module Chapter8Sort.

(** How a loop of the model ends: it runs to completion, an index
    expression panics, or the loop was not given enough fuel. *)
Inductive outcome (A : Type) : Type :=
  | Done (a : A)
  | IndexPanic
  | OutOfFuel.
Arguments Done {A} a.
Arguments IndexPanic {A}.
Arguments OutOfFuel {A}.

(** [s[j]] for a slice [s] and an [int] index [j]. *)
Definition index {A : Type} (s : list A) (j : Z) : option A :=
  if j <? 0 then None else s !! Z.to_nat j.

(** [s[j] = x], only used on indices that [index] has accepted. *)
Definition store {A : Type} (s : list A) (j : Z) (x : A) : list A :=
  <[Z.to_nat j := x]> s.

Section bubble.
Context {A : Type} (gt : A → A → bool).

(** The body of the inner loop:
    [if nums[j] > nums[j+1] { nums[j], nums[j+1] = nums[j+1], nums[j] }]. *)
Definition compare_swap (nums : list A) (j : Z) : option (list A) :=
  match index nums j, index nums (j + 1) with
  | Some x, Some y =>
      Some (if gt x y then store (store nums j y) (j + 1) x else nums)
  | _, _ => None
  end.

(** [for j := ...; j < len(nums)-i-1; j++ { ... }], entered at [j]. *)
Fixpoint inner_loop (fuel : nat) (nums : list A) (i j : Z) : outcome (list A) :=
  if j <? Z.of_nat (length nums) - i - 1 then
    match fuel with
    | O => OutOfFuel
    | S fuel' =>
        match compare_swap nums j with
        | Some nums' => inner_loop fuel' nums' i (j + 1)
        | None => IndexPanic
        end
    end
  else Done nums.

(** [for i := ...; i < len(nums)-1; i++ { for j := 0; ... }], entered at [i]. *)
Fixpoint outer_loop (fuel : nat) (nums : list A) (i : Z) : outcome (list A) :=
  if i <? Z.of_nat (length nums) - 1 then
    match fuel with
    | O => OutOfFuel
    | S fuel' =>
        match inner_loop (length nums) nums i 0 with
        | Done nums' => outer_loop fuel' nums' (i + 1)
        | IndexPanic => IndexPanic
        | OutOfFuel => OutOfFuel
        end
    end
  else Done nums.

(** The whole function; neither loop can run more than [len(nums)] times. *)
Definition bubble_sort (nums : list A) : outcome (list A) :=
  outer_loop (length nums) nums 0.

(** One pass of the inner loop seen as a list recursion: [x] is the element
    currently under index [j], [rest] what lies to its right. *)
Fixpoint bubble (x : A) (rest : list A) : list A :=
  match rest with
  | [] => [x]
  | y :: rest' => if gt x y then y :: bubble x rest' else x :: bubble y rest'
  end.
End bubble.

(** [x] is not above [y]: the test [x > y] of the inner loop fails. *)
Definition ngt {A : Type} (gt : A → A → bool) (x y : A) : Prop := gt x y = false.

(** [nums[j] > nums[j+1]] on ints. *)
Definition int_gt (x y : Z) : bool := x >? y.

(** [strs[j] > strs[j+1]] on strings: Go compares strings byte by byte. *)
Definition string_gt (x y : string) : bool :=
  match String.compare x y with
  | Gt => true
  | _ => false
  end.

Definition sortInts (nums : list Z) : outcome (list Z) := bubble_sort int_gt nums.
Definition sortStrings (strs : list string) : outcome (list string) :=
  bubble_sort string_gt strs.

(** The order a slice sorted by [sortStrings] is in. *)
Definition string_le (x y : string) : Prop := ngt string_gt x y.

End Chapter8Sort.

(** ** Chapter 8: the [File] type behind [ReadWriteCloser] *)

Module Chapter8File.

(** An [error] of this chapter is [nil] or a value made by [fmt.Errorf]
    from a constant format; only its message is ever looked at. *)
Definition error : Type := option string.

Record File : Type := mkFile {
  Name : string;
  Content : string;
  IsOpen : bool;
}.

(** The builtin [copy(dst, src)]: the new contents of [dst] and the number
    of elements copied, the shorter of the two lengths. *)
Definition copy (dst src : list Byte.byte) : list Byte.byte * Z :=
  let n := Nat.min (length dst) (length src) in
  (take n src ++ drop n dst, Z.of_nat n).

(** [len(s)] of a string: its number of bytes. *)
Definition len (s : string) : Z := Z.of_nat (String.length s).

(** [func (f *File) Read(p []byte) (n int, err error)]; the result also
    carries the contents of [p] after the call. *)
Definition Read (f : File) (p : list Byte.byte) : list Byte.byte * Z * error :=
  if negb (IsOpen f) then (p, 0, Some "file is not open")
  else
    let '(p', _) := copy p (String.list_byte_of_string (Content f)) in
    (p', len (Content f), None).

(** [func (f *File) Write(p []byte) (n int, err error)]; the first component
    is the [File] that [f] points to after the call. *)
Definition Write (f : File) (p : list Byte.byte) : File * Z * error :=
  if negb (IsOpen f) then (f, 0, Some "file is not open")
  else
    (mkFile (Name f) (String.string_of_list_byte p) (IsOpen f),
     Z.of_nat (length p), None).

(** [func (f *File) Close() error]. *)
Definition Close (f : File) : File * error :=
  if negb (IsOpen f) then (f, Some "file is already closed")
  else (mkFile (Name f) (Content f) false, None).

(** A call of one of the three methods on a [File]. *)
Inductive FileOp : Type :=
  | OpRead (p : list Byte.byte)
  | OpWrite (p : list Byte.byte)
  | OpClose.

(** The [File] after the call and the error the call returns. *)
Definition call (f : File) (op : FileOp) : File * error :=
  match op with
  | OpRead p => (f, (Read f p).2)
  | OpWrite p => let '(f', _, err) := Write f p in (f', err)
  | OpClose => Close f
  end.

Definition is_close (op : FileOp) : bool :=
  match op with
  | OpClose => true
  | _ => false
  end.

(** The [File] after a sequence of calls. *)
Definition after (f : File) (history : list FileOp) : File :=
  foldl (λ f op, (call f op).1) f history.

(** The file of [section3_InterfaceComposition]. *)
Definition document : File := mkFile "document.txt" "Hello, Go!" true.

(** No state-machine behaviour: the error a call returns is the same
    whatever calls were made on the [File] before. *)
Definition results_ignore_history : Prop :=
  ∀ (f : File) (history : list FileOp) (op : FileOp),
    (call (after f history) op).2 = (call f op).2.

End Chapter8File.

(** ** Chapter 9: [Person] with pointer receivers, the [Config] singleton *)

Module Chapter9.
Import Go.

(** Addresses of heap cells; a pointer is [nil] or an address. *)
Definition addr : Type := nat.
Definition ptr : Type := option addr.

Record Person : Type := mkPerson {
  Name : string;
  Age : Z;
  Email : string;
  IsActive : bool;
  Hobbies : list string;
  Metadata : gmap string string;
}.

Record Config : Type := mkConfig {
  Theme : string;
  Language : string;
  Timezone : string;
  DebugMode : bool;
}.

(** The state of the running program: the [Person] and [Config] cells
    allocated so far, the package variable [configInstance], and the text
    written to standard output. *)
Record state : Type := mkState {
  persons : gmap addr Person;
  configs : gmap addr Config;
  configInstance : ptr;
  stdout : string;
}.

(** [func (p *Person) HaveBirthday()]; [None] is the panic of a nil
    dereference. *)
Definition HaveBirthday (p : ptr) (s : state) : option state :=
  a ← p;
  old ← persons s !! a;
  let new := mkPerson (Name old) (int_add (Age old) 1) (Email old)
               (IsActive old) (Hobbies old) (Metadata old) in
  Some (mkState (<[a := new]> (persons s)) (configs s) (configInstance s)
          (stdout s +:+ "Happy birthday! " +:+ Name new +:+ " is now "
           +:+ fmt_int (Age new) +:+ " years old." +:+ "
")).

(** [func GetConfig() *Config]. *)
Definition GetConfig (s : state) : ptr * state :=
  match configInstance s with
  | None =>
      let a := fresh (dom (configs s)) in
      let s' := mkState (persons s)
                  (<[a := mkConfig "light" "en" "UTC" false]> (configs s))
                  (Some a) (stdout s) in
      (configInstance s', s')
  | Some a => (configInstance s, s)
  end.

(** [func (c *Config) SetTheme(theme string)]. *)
Definition SetTheme (c : ptr) (theme : string) (s : state) : option state :=
  a ← c;
  old ← configs s !! a;
  Some (mkState (persons s)
          (<[a := mkConfig theme (Language old) (Timezone old) (DebugMode old)]>
             (configs s))
          (configInstance s) (stdout s)).

(** [func (c *Config) GetTheme() string]. *)
Definition GetTheme (c : ptr) (s : state) : option string :=
  a ← c;
  cfg ← configs s !! a;
  Some (Theme cfg).

(** What the program can do with the singleton between two calls of
    [GetConfig]: call [GetConfig], or call a method through some pointer. *)
Inductive config_call : Type :=
  | CallGetConfig
  | CallSetTheme (c : ptr) (theme : string)
  | CallGetTheme (c : ptr).

Definition do_call (s : state) (c : config_call) : option state :=
  match c with
  | CallGetConfig => Some (GetConfig s).2
  | CallSetTheme c theme => SetTheme c theme s
  | CallGetTheme c => _ ← GetTheme c s; Some s
  end.

Definition do_calls (s : state) (cs : list config_call) : option state :=
  foldl (λ os c, s ← os; do_call s c) (Some s) cs.

(** The instance, once set, points to an allocated [Config]. *)
Definition instance_allocated (s : state) : Prop :=
  ∀ a, configInstance s = Some a → is_Some (configs s !! a).

(** The program starts with [configInstance] nil and nothing allocated. *)
Definition start : state := mkState ∅ ∅ None "".

End Chapter9.

(** ** Chapter 10: error values and the [errors] package *)

Module Chapter10.
Import Go.

Definition addr : Type := nat.

(** The values the program stores in a field of type [interface{}]. *)
Inductive any : Type :=
  | AnyInt (n : Z)
  | AnyString (s : string).

(** [fmt]'s [%v] of such a value. *)
Definition fmt_any (v : any) : string :=
  match v with
  | AnyInt n => fmt_int n
  | AnyString s => s
  end.

Record User : Type := mkUser {
  ID : string;
  Name : string;
  Age : Z;
  Email : string;
}.

Module ValidationError.
Record t : Type := mk {
  Field : string;
  Message : string;
  Value : any;
}.
End ValidationError.

Module DatabaseError.
Record t : Type := mk {
  Operation : string;
  Table : string;
  Message : string;
  Code : Z;
}.
End DatabaseError.

(** The dynamic value of a non-nil [error].  Values of pointer type carry the
    address of the cell they point to together with its contents, which no
    function of the chapter changes after allocation.  [errorString] is what
    [errors.New] returns, and [fmt.Errorf] without [%w]; [wrapError] is what
    [fmt.Errorf] returns for a format with one [%w].  [NetworkError], whose
    message prints a [time.Duration], is left out: none of the functions
    below makes one. *)
#[warnings="-register-all"]
Inductive error_value : Type :=
  | errorString (a : addr) (s : string)
  | wrapError (a : addr) (msg : string) (err : error_value)
  | ValidationErrorPtr (a : addr) (e : ValidationError.t)
  | DatabaseErrorPtr (a : addr) (e : DatabaseError.t)
  | AggregatedErrorPtr (a : addr) (Errors : list error_value)
  | SimpleErrorVal (Message : string)
  | StringErrorVal (s : string)
  | CodeErrorVal (c : Z).

(** An [error] is [nil] or has a dynamic value. *)
Definition error : Type := option error_value.

(** The method [Error() string] of each type. *)
Fixpoint Error (e : error_value) : string :=
  match e with
  | errorString _ s => s
  | wrapError _ msg _ => msg
  | ValidationErrorPtr _ v =>
      "validation failed for " +:+ ValidationError.Field v +:+ ": "
      +:+ ValidationError.Message v +:+ " (value: "
      +:+ fmt_any (ValidationError.Value v) +:+ ")"
  | DatabaseErrorPtr _ d =>
      "database error in " +:+ DatabaseError.Operation d +:+ " on table "
      +:+ DatabaseError.Table d +:+ ": " +:+ DatabaseError.Message d
      +:+ " (code: " +:+ fmt_int (DatabaseError.Code d) +:+ ")"
  | AggregatedErrorPtr _ errs =>
      match errs with
      | [] => "no errors"
      | _ =>
          "multiple errors (" +:+ fmt_int (Z.of_nat (length errs)) +:+ "): "
          +:+ String.concat "; " (List.map Error errs)
      end
  | SimpleErrorVal m => m
  | StringErrorVal s => s
  | CodeErrorVal c => "error code: " +:+ fmt_int c
  end.

(** The dynamic types. *)
Inductive go_type : Type :=
  | T_errorString
  | T_wrapError
  | T_ValidationError
  | T_DatabaseError
  | T_AggregatedError
  | T_SimpleError
  | T_StringError
  | T_CodeError.

#[export] Instance go_type_eq_dec : EqDecision go_type.
Proof. solve_decision. Defined.

Definition TypeOf (e : error_value) : go_type :=
  match e with
  | errorString _ _ => T_errorString
  | wrapError _ _ _ => T_wrapError
  | ValidationErrorPtr _ _ => T_ValidationError
  | DatabaseErrorPtr _ _ => T_DatabaseError
  | AggregatedErrorPtr _ _ => T_AggregatedError
  | SimpleErrorVal _ => T_SimpleError
  | StringErrorVal _ => T_StringError
  | CodeErrorVal _ => T_CodeError
  end.

(** [x == y] on non-nil interface values: the same dynamic type and, for
    pointers, the same address; for the three value types, equal values. *)
Definition same (x y : error_value) : bool :=
  match x, y with
  | errorString a _, errorString b _ => Nat.eqb a b
  | wrapError a _ _, wrapError b _ _ => Nat.eqb a b
  | ValidationErrorPtr a _, ValidationErrorPtr b _ => Nat.eqb a b
  | DatabaseErrorPtr a _, DatabaseErrorPtr b _ => Nat.eqb a b
  | AggregatedErrorPtr a _, AggregatedErrorPtr b _ => Nat.eqb a b
  | SimpleErrorVal m, SimpleErrorVal m' => String.eqb m m'
  | StringErrorVal s, StringErrorVal s' => String.eqb s s'
  | CodeErrorVal c, CodeErrorVal c' => Z.eqb c c'
  | _, _ => false
  end.

(** [errors.Unwrap]: only [wrapError] has an [Unwrap] method. *)
Definition Unwrap (err : error) : error :=
  match err with
  | Some (wrapError _ _ inner) => Some inner
  | _ => None
  end.

(** The loop of [errors.Is] on a non-nil [err]; no type of the chapter has
    an [Is] method, and every type is comparable. *)
Fixpoint is_loop (err target : error_value) : bool :=
  same err target ||
  match err with
  | wrapError _ _ inner => is_loop inner target
  | _ => false
  end.

(** [errors.Is(err, target)]. *)
Definition Is (err target : error) : bool :=
  match err, target with
  | Some e, Some t => is_loop e t
  | None, None => true
  | _, _ => false
  end.

(** The loop of [errors.As] on a non-nil [err], for a target of type [*T]:
    the value stored in the target, if one is found.  No type of the chapter
    has an [As] method. *)
Fixpoint as_loop (err : error_value) (T : go_type) : option error_value :=
  if decide (TypeOf err = T) then Some err
  else
    match err with
    | wrapError _ _ inner => as_loop inner T
    | _ => None
    end.

(** [errors.As(err, &target)] with [target] a variable of type [T]. *)
Definition As (err : error) (T : go_type) : option error_value :=
  e ← err; as_loop e T.

Definition IsValidationError (err : error) : bool :=
  bool_decide (is_Some (As err T_ValidationError)).

Definition IsDatabaseError (err : error) : bool :=
  bool_decide (is_Some (As err T_DatabaseError)).

(** The chain of an error: the error itself, then what [errors.Unwrap]
    returns for it, and so on until [nil]. *)
Fixpoint links (e : error_value) : list error_value :=
  e :: match e with
       | wrapError _ _ inner => links inner
       | _ => []
       end.

Definition chain (err : error) : list error_value :=
  match err with
  | Some e => links e
  | None => []
  end.

(** ** Chapter 10: the running program *)

(** What a run depends on and what it leaves behind: the next free address,
    the readings of the clock still to come, how the [log] package renders a
    reading in the local time zone, and the two output streams. *)
Record world : Type := mkWorld {
  next : addr;
  clock : nat → Z;
  ticks : nat;
  stamp : Z → string;
  stdout : string;
  stderr : string;
}.

(** A call returns, or it panics with a value (printed with [%v]). *)
Inductive result (A : Type) : Type :=
  | Ok (a : A)
  | Panicked (v : string).
Arguments Ok {A} a.
Arguments Panicked {A} v.

Definition M (A : Type) : Type := world → result A * world.

Definition ret {A : Type} (a : A) : M A := λ w, (Ok a, w).

Definition bind {A B : Type} (m : M A) (k : A → M B) : M B :=
  λ w, match m w with
       | (Ok a, w') => k a w'
       | (Panicked v, w') => (Panicked v, w')
       end.

Notation "'do' x <- m ; k" := (bind m (λ x, k))
  (at level 10, x name, m at level 100, k at level 200).
Notation "'run' m ; k" := (bind m (λ _, k))
  (at level 10, m at level 100, k at level 200).

Definition panic {A : Type} (v : string) : M A := λ w, (Panicked v, w).

(** Allocation of a fresh cell. *)
Definition new : M addr :=
  λ w, (Ok (next w),
        mkWorld (S (next w)) (clock w) (ticks w) (stamp w) (stdout w) (stderr w)).

(** [time.Now().UnixNano()]. *)
Definition time_Now_UnixNano : M Z :=
  λ w, (Ok (clock w (ticks w)),
        mkWorld (next w) (clock w) (S (ticks w)) (stamp w) (stdout w) (stderr w)).

(** [fmt.Printf] and [fmt.Println], given the formatted text. *)
Definition fmt_Print (text : string) : M unit :=
  λ w, (Ok tt,
        mkWorld (next w) (clock w) (ticks w) (stamp w) (stdout w +:+ text) (stderr w)).

Definition newline : string := "
".

Definition fmt_Println (text : string) : M unit := fmt_Print (text +:+ newline).

(** [log.Printf], given the formatted text: the standard logger writes a
    time stamp, the text and a newline to standard error. *)
Definition log_Printf (text : string) : M unit :=
  do now <- time_Now_UnixNano;
  λ w, (Ok tt,
        mkWorld (next w) (clock w) (ticks w) (stamp w) (stdout w)
          (stderr w +:+ stamp w now +:+ text +:+ newline)).

(** [errors.New(text)], and [fmt.Errorf] for a format without [%w]. *)
Definition errors_New (text : string) : M error_value :=
  do a <- new; ret (errorString a text).

(** [fmt.Errorf(prefix + "%w", err)] for a non-nil [err]. *)
Definition fmt_Errorf_w (prefix : string) (err : error_value) : M error_value :=
  do a <- new; ret (wrapError a (prefix +:+ Error err) err).

(** [strings.Contains(s, substr)]. *)
Definition strings_Contains (s substr : string) : bool :=
  bool_decide (is_Some (String.index 0 substr s)).

(** ** Chapter 10: the functions of the chapter *)

(** [func processUser(user User) error]. *)
Definition processUser (user : User) : M error :=
  if String.eqb (Name user) "" then
    do e <- errors_New "name is required"; ret (Some e)
  else if Age user <? 18 then
    do e <- errors_New "user must be at least 18"; ret (Some e)
  else if String.eqb (Email user) "" then
    do e <- errors_New "email is required"; ret (Some e)
  else if negb (strings_Contains (Email user) "@") then
    do e <- errors_New "invalid email format"; ret (Some e)
  else
    run fmt_Println "User is valid!"; ret None.

Definition validateName (name : string) : M error :=
  if Z.of_nat (String.length name) <? 2 then
    do e <- errors_New ("name too short: " +:+ name +:+ " (minimum 2 characters)");
    ret (Some e)
  else ret None.

Definition validateAge (age : Z) : M error :=
  if age <? 18 then
    do e <- errors_New ("age too young: " +:+ fmt_int age +:+ " (minimum 18)");
    ret (Some e)
  else ret None.

Definition validateEmail (email : string) : M error :=
  if negb (strings_Contains email "@") then
    do e <- errors_New ("invalid email format: " +:+ email); ret (Some e)
  else ret None.

(** [errors = append(errors, err)] when [err] is not nil. *)
Definition collect (errors : list error_value) (err : error) : list error_value :=
  match err with
  | Some e => errors ++ [e]
  | None => errors
  end.

Definition validateUserComprehensive (user : User) : M error :=
  do err1 <- validateName (Name user);
  do err2 <- validateAge (Age user);
  do err3 <- validateEmail (Email user);
  let errors := collect (collect (collect [] err1) err2) err3 in
  if 0 <? Z.of_nat (length errors) then
    do a <- new; ret (Some (AggregatedErrorPtr a errors))
  else ret None.

Definition validateUserAge (age : Z) : M error :=
  if age <? 18 then
    do a <- new;
    ret (Some (ValidationErrorPtr a
                 (ValidationError.mk "age" "must be at least 18" (AnyInt age))))
  else ret None.

Definition connectToDatabase : M error :=
  do a <- new;
  ret (Some (DatabaseErrorPtr a
               (DatabaseError.mk "CONNECT" "N/A" "connection refused" 1001))).

Definition processUserWithErrorTypes (user : User) : M error :=
  do err <- validateUserAge (Age user);
  match err with
  | Some _ => ret err
  | None =>
      do err <- connectToDatabase;
      match err with
      | Some e =>
          run log_Printf ("Database connection failed: " +:+ Error e);
          do e' <- errors_New "service temporarily unavailable";
          ret (Some e')
      | None => ret None
      end
  end.

Definition handleUserSubmission (user : User) : M unit :=
  do err <- processUser user;
  match err with
  | Some e =>
      run log_Printf ("User submission failed: " +:+ Error e);
      if IsValidationError err then
        fmt_Println "Please fix the validation issues and try again"
      else
        fmt_Println "An unexpected error occurred. Please try again later."
  | None => fmt_Println "User submitted successfully!"
  end.

(** The test of [simulateUnreliableOperation] on a clock reading:
    [time.Now().UnixNano()%10 < 7], with Go's truncated remainder. *)
Definition unlucky (now : Z) : bool := Z.rem now 10 <? 7.

Definition simulateUnreliableOperation : M error :=
  do now <- time_Now_UnixNano;
  if unlucky now then
    do e <- errors_New "operation failed"; ret (Some e)
  else ret None.

(** The loop of [retryOperation], entered at [attempt] with [todo]
    iterations to go before [attempt <= maxAttempts] fails; the body changes
    neither [attempt] nor [maxAttempts]. *)
Fixpoint retry_loop (todo : nat) (attempt maxAttempts : Z) (operation : M error)
    : M bool :=
  match todo with
  | O => ret false
  | S todo' =>
      run fmt_Print ("Attempt " +:+ fmt_int attempt +:+ ": ");
      do err <- operation;
      match err with
      | Some e =>
          run fmt_Print ("Failed: " +:+ Error e +:+ newline);
          run (if attempt <? maxAttempts then fmt_Println "  Retrying..."
               else ret tt);
          retry_loop todo' (attempt + 1) maxAttempts operation
      | None =>
          run fmt_Println "Succeeded!"; ret true
      end
  end.

Definition retryOperation (maxAttempts : Z) (operation : M error) : M bool :=
  retry_loop (Z.to_nat maxAttempts) 1 maxAttempts operation.

(** The first retry demonstration of [section6_ErrorHandlingBestPractices]. *)
Definition section6_RetryPatterns : M unit :=
  run fmt_Println (newline +:+ "3. Retry Patterns:");
  do success <- retryOperation 3 simulateUnreliableOperation;
  if success then fmt_Println "Operation succeeded after retries"
  else fmt_Println "Operation failed after all retries".

(** The user of [section6_ErrorHandlingBestPractices]. *)
Definition alice : User := mkUser "" "Alice" 15 "alice@example.com".

(** The chain of [section5_AdvancedErrorPatterns], with the lines printed
    while it is built: [originalErr], [dbErr], [serviceErr], [apiErr]. *)
Definition section5_ErrorWrapping
    : M (error_value * error_value * error_value * error_value) :=
  run fmt_Println (newline +:+ "1. Error Wrapping:");
  do originalErr <- errors_New "connection timeout";
  run fmt_Print ("Original error: " +:+ Error originalErr +:+ newline);
  do dbErr <- fmt_Errorf_w "database query failed: " originalErr;
  run fmt_Print ("Database error: " +:+ Error dbErr +:+ newline);
  do serviceErr <- fmt_Errorf_w "failed to get user data: " dbErr;
  run fmt_Print ("Service error: " +:+ Error serviceErr +:+ newline);
  do apiErr <- fmt_Errorf_w "user profile update failed: " serviceErr;
  run fmt_Print ("API error: " +:+ Error apiErr +:+ newline);
  ret (originalErr, dbErr, serviceErr, apiErr).

(** [a / b] on ints: a run-time panic when [b] is zero. *)
Definition int_div (a b : Z) : M Z :=
  if b =? 0 then panic "runtime error: integer divide by zero"
  else ret (int_quo a b).

(** [func divideSafely(a, b int) (int, error)]. *)
Definition divideSafely (a b : Z) : M (Z * error) :=
  if b =? 0 then
    do e <- errors_New "division by zero"; ret (0, Some e)
  else
    do q <- int_div a b; ret (q, None).

(** A function with named results of type [R] and one deferred call.  The
    [body] returns the named results or panics; the functions modelled with
    this assign their named results only when they return, so a panic finds
    them at their zero values.  The deferred call sees the panic in flight,
    if any, and the named results; it gives back the named results and the
    panic that is still in flight after it (none once [recover] was called). *)
Definition with_defer {R : Type} (zero : R) (body : M R)
    (deferred : option string → R → M (R * option string)) : M R :=
  λ w,
    let '(r, w1) := body w in
    let '(named, panicking) :=
      match r with
      | Ok named => (named, None)
      | Panicked v => (zero, Some v)
      end in
    match deferred panicking named w1 with
    | (Ok (named', None), w2) => (Ok named', w2)
    | (Ok (_, Some v), w2) => (Panicked v, w2)
    | (Panicked v, w2) => (Panicked v, w2)
    end.

(** The deferred closure of [safeDivide]:
    [if r := recover(); r != nil { err = fmt.Errorf("panic recovered: %v", r) }]. *)
Definition safeDivide_deferred (panicking : option string) (named : Z * error)
    : M ((Z * error) * option string) :=
  match panicking with
  | Some r =>
      do e <- errors_New ("panic recovered: " +:+ r);
      ret ((named.1, Some e), None)
  | None => ret (named, None)
  end.

(** [func safeDivide(a, b int) (result int, err error)]. *)
Definition safeDivide (a b : Z) : M (Z * error) :=
  with_defer (0, None)
    (if b =? 0 then panic "division by zero"
     else do result <- int_div a b; ret (result, None))
    safeDivide_deferred.

(** The text on standard output is the same in every run: here for two runs
    of the retry demonstration that start alike and read different clocks. *)
Definition retry_output_is_fixed : Prop :=
  ∀ w1 w2 : world,
    next w1 = next w2 → ticks w1 = ticks w2 → stdout w1 = stdout w2 →
    stdout (section6_RetryPatterns w1).2 = stdout (section6_RetryPatterns w2).2.

(** Nothing is written but standard output: here for [handleUserSubmission]. *)
Definition writes_only_stdout : Prop :=
  ∀ (user : User) (w : world), stderr (handleUserSubmission user w).2 = stderr w.

(** Two worlds that differ at most in the clock readings and in what is
    logged, the readings agreeing on the test of
    [simulateUnreliableOperation]. *)
Definition alike (w1 w2 : world) : Prop :=
  next w1 = next w2 ∧ ticks w1 = ticks w2 ∧ stdout w1 = stdout w2 ∧
  ∀ n, unlucky (clock w1 n) = unlucky (clock w2 n).

(** A computation that cannot tell such worlds apart. *)
Definition respects {A : Type} (m : M A) : Prop :=
  ∀ w1 w2, alike w1 w2 → (m w1).1 = (m w2).1 ∧ alike (m w1).2 (m w2).2.

(** A world for examples: the clock always reads [now]. *)
Definition frozen (now : Z) : world :=
  mkWorld 0%nat (λ _, now) 0%nat (λ _, "2024/01/01 00:00:00 ") "" "".

End Chapter10.

(** ** Chapter 4: functions on ints *)

Module Chapter4.
Import Go.

Definition int_sub (x y : Z) : Z := wrap (x - y).
Definition int_mul (x y : Z) : Z := wrap (x * y).

(** [x % y] for a nonzero [y]: the remainder of the truncated division. *)
Definition int_rem (x y : Z) : Z := wrap (Z.rem x y).

(** [func calculateSum(a int, b int) int]. *)
Definition calculateSum (a b : Z) : Z := int_add a b.

(** [func checkAge(age int) bool]. *)
Definition checkAge (age : Z) : bool := 18 <=? age.

(** [func divideNumbers(a int, b int) (int, int)]; [None] is the run-time
    panic of an integer division by zero. *)
Definition divideNumbers (a b : Z) : option (Z * Z) :=
  if b =? 0 then None
  else
    let quotient := int_quo a b in
    let remainder := int_rem a b in
    Some (quotient, remainder).

(** [func performOperation(operation string, a int, b int) (bool, int)]. *)
Definition performOperation (operation : string) (a b : Z) : bool * Z :=
  if String.eqb operation "add" then (true, int_add a b)
  else if String.eqb operation "subtract" then (true, int_sub a b)
  else if String.eqb operation "multiply" then (true, int_mul a b)
  else if String.eqb operation "divide" then
    if negb (b =? 0) then (true, int_quo a b) else (false, 0)
  else (false, 0).

End Chapter4.

(** ** Chapter 6: functions on a map of students *)

Module Chapter6Students.
Import Go.

(** The values the program stores under type [interface{}]. *)
Inductive any : Type :=
  | AnyInt (n : Z)
  | AnyString (s : string)
  | AnyBool (b : bool).

#[export] Instance any_eq_dec : EqDecision any.
Proof. solve_decision. Defined.

(** A [map[string]interface{}] and a [map[string]map[string]interface{}]
    as the functions below read them: a nil map reads as the empty map. *)
Abbreviation student := (gmap string any).
Abbreviation students := (gmap string (gmap string any)).

(** A [range] loop over a map visits every entry once, in an order that the
    runtime picks for that loop. *)
Definition iteration_order (m : students) (order : list (string * student)) : Prop :=
  order ≡ₚ map_to_list m.

(** [func getStudentDetails(students, name) (bool, map[string]interface{})]. *)
Definition getStudentDetails (m : students) (name : string) : bool * student :=
  match m !! name with
  | Some s => (true, s)
  | None => (false, ∅)
  end.

(** [func addStudent(students, name, age, grade, city, active)].  The map is
    updated in place; the argument is [None] for a nil map, and the result
    is [None] for the panic of an assignment to an entry of a nil map. *)
Definition addStudent (m : option students) (name : string) (age : Z)
    (grade city : string) (active : bool) : option students :=
  m ← m;
  Some (<[name := {["age" := AnyInt age; "grade" := AnyString grade;
                    "city" := AnyString city; "active" := AnyBool active]}]> m).

(** [activeStatus, ok := info["active"].(bool); ok && activeStatus]. *)
Definition is_active (info : student) : bool :=
  match info !! "active" with
  | Some (AnyBool activeStatus) => activeStatus
  | _ => false
  end.

(** [func getActiveStudents(students)], for the iteration order [order] of
    its loop. *)
Definition getActiveStudents (order : list (string * student)) : students :=
  foldl (λ active entry,
           if is_active entry.2 then <[entry.1 := entry.2]> active else active)
        ∅ order.

(** [studentGrade, ok := info["grade"].(string); ok && studentGrade == grade]. *)
Definition has_grade (grade : string) (info : student) : bool :=
  match info !! "grade" with
  | Some (AnyString studentGrade) => String.eqb studentGrade grade
  | _ => false
  end.

(** [func findStudentsByGrade(students, grade) []string], for the iteration
    order [order] of its loop. *)
Definition findStudentsByGrade (order : list (string * student)) (grade : string)
    : list string :=
  foldl (λ result entry,
           if has_grade grade entry.2 then result ++ [entry.1] else result)
        [] order.

(** [func countStudentsByCity(students) map[string]int], for the iteration
    order [order] of its loop; a missing key reads as 0. *)
Definition countStudentsByCity (order : list (string * student)) : gmap string Z :=
  foldl (λ cityCounts entry,
           match entry.2 !! "city" with
           | Some (AnyString city) =>
               <[city := int_add (default 0 (cityCounts !! city)) 1]> cityCounts
           | _ => cityCounts
           end)
        ∅ order.

(** The students of [city]. *)
Definition lives_in (city : string) (info : student) : bool :=
  bool_decide (info !! "city" = Some (AnyString city)).

(** The map of [section4_FunctionsWithMaps]. *)
Definition sample : students :=
  {[ "Alice" := {["age" := AnyInt 20; "grade" := AnyString "A";
                  "city" := AnyString "New York"; "active" := AnyBool true]};
     "Bob" := {["age" := AnyInt 22; "grade" := AnyString "B";
                "city" := AnyString "London"; "active" := AnyBool false]};
     "Charlie" := {["age" := AnyInt 19; "grade" := AnyString "A";
                    "city" := AnyString "Paris"; "active" := AnyBool true]} ]}.

End Chapter6Students.

(** ** Chapter 7: validation and a struct with collections *)

Module Chapter7Patterns.
Import Go.

(** An [error] of this chapter is [nil] or a value made by [fmt.Errorf]
    from a format without [%w]; only its message is ever looked at. *)
Definition error : Type := option string.

Record User : Type := mkUser {
  Name : string;
  Age : Z;
  Email : string;
}.

(** [func (u User) Validate() error]. *)
Definition Validate (u : User) : error :=
  if String.eqb (Name u) "" then Some "name is required"
  else if Age u <? 18 then
    Some ("age must be at least 18, got " +:+ fmt_int (Age u))
  else if negb (Chapter10.strings_Contains (Email u) "@") then
    Some ("invalid email format: " +:+ Email u)
  else None.

(** A [Team]; the field [Info] is [None] for a nil map. *)
Record Team : Type := mkTeam {
  Members : list Chapter7.Person;
  Info : option (gmap string string);
}.

(** [func (t *Team) AddMember(person Person)]: the [Team] that [t] points
    to after the call, or [None] for the panic of an assignment to an entry
    of a nil map. *)
Definition AddMember (t : Team) (person : Chapter7.Person) : option Team :=
  let members := Members t ++ [person] in
  info ← Info t;
  Some (mkTeam members
          (Some (<["count" := fmt_int (Z.of_nat (length members))]> info))).

(** Several calls of [AddMember], one after the other. *)
Definition AddMembers (t : Team) (persons : list Chapter7.Person) : option Team :=
  foldl (λ ot person, t ← ot; AddMember t person) (Some t) persons.

End Chapter7Patterns.

(** ** Chapter 8: the two databases behind [Database] *)

Module Chapter8Database.

Definition error : Type := option string.

Module MySQLDatabase.
Record t : Type := mk {
  ConnectionString : string;
  IsConnected : bool;
}.

(** [func (m *MySQLDatabase) Connect() error]. *)
Definition Connect (m : t) : t * error := (mk (ConnectionString m) true, None).

(** [func (m *MySQLDatabase) Query(query string) (string, error)]. *)
Definition Query (m : t) (query : string) : string * error :=
  if negb (IsConnected m) then ("", Some "not connected to database")
  else ("MySQL result for: " +:+ query, None).

(** [func (m *MySQLDatabase) Close()]. *)
Definition Close (m : t) : t := mk (ConnectionString m) false.

Definition GetType (m : t) : string := "MySQL".
End MySQLDatabase.

Module PostgreSQLDatabase.
Record t : Type := mk {
  ConnectionString : string;
  IsConnected : bool;
}.

Definition Connect (p : t) : t * error := (mk (ConnectionString p) true, None).

Definition Query (p : t) (query : string) : string * error :=
  if negb (IsConnected p) then ("", Some "file is not open")
  else ("PostgreSQL result for: " +:+ query, None).

Definition Close (p : t) : t := mk (ConnectionString p) false.

Definition GetType (p : t) : string := "PostgreSQL".
End PostgreSQLDatabase.

(** What a value of interface type [Database] points to. *)
Inductive Database : Type :=
  | MySQL (m : MySQLDatabase.t)
  | PostgreSQL (p : PostgreSQLDatabase.t).

(** The methods of the interface, dispatched on the dynamic type. *)
Definition Connect (db : Database) : Database * error :=
  match db with
  | MySQL m => (MySQL (MySQLDatabase.Connect m).1, (MySQLDatabase.Connect m).2)
  | PostgreSQL p =>
      (PostgreSQL (PostgreSQLDatabase.Connect p).1, (PostgreSQLDatabase.Connect p).2)
  end.

Definition Query (db : Database) (query : string) : string * error :=
  match db with
  | MySQL m => MySQLDatabase.Query m query
  | PostgreSQL p => PostgreSQLDatabase.Query p query
  end.

Definition Close (db : Database) : Database :=
  match db with
  | MySQL m => MySQL (MySQLDatabase.Close m)
  | PostgreSQL p => PostgreSQL (PostgreSQLDatabase.Close p)
  end.

Definition GetType (db : Database) : string :=
  match db with
  | MySQL m => MySQLDatabase.GetType m
  | PostgreSQL p => PostgreSQLDatabase.GetType p
  end.

(** A call of one of the methods that can change the database. *)
Inductive DatabaseOp : Type :=
  | OpConnect
  | OpQuery (query : string)
  | OpClose.

Definition call (db : Database) (op : DatabaseOp) : Database :=
  match op with
  | OpConnect => (Connect db).1
  | OpQuery _ => db
  | OpClose => Close db
  end.

Definition after (db : Database) (history : list DatabaseOp) : Database :=
  foldl call db history.

End Chapter8Database.

(** ** Chapter 9: more pointer receivers, the computer builder *)

Module Chapter9Patterns.
Import Go Chapter9.

(** [func (p *Person) UpdateEmail(newEmail string)]; [None] is the panic of
    a nil dereference. *)
Definition UpdateEmail (p : ptr) (newEmail : string) (s : state) : option state :=
  a ← p;
  old ← persons s !! a;
  let new := mkPerson (Name old) (Age old) newEmail (IsActive old)
               (Hobbies old) (Metadata old) in
  Some (mkState (<[a := new]> (persons s)) (configs s) (configInstance s)
          (stdout s +:+ "Email updated to: " +:+ Email new +:+ "
")).

Record Computer : Type := mkComputer {
  CPU : string;
  RAM : Z;
  Storage : string;
  GPU : string;
}.

(** The [ComputerBuilder] cells allocated so far, each with its field
    [computer]. *)
Abbreviation builders := (gmap addr Computer).

(** [func NewComputerBuilder() *ComputerBuilder]. *)
Definition NewComputerBuilder (h : builders) : ptr * builders :=
  let a := fresh (dom h) in
  (Some a, <[a := mkComputer "" 0 "" ""]> h).

(** The setters: each returns the pointer it was called on; [None] is the
    panic of a nil dereference. *)
Definition SetCPU (cb : ptr) (cpu : string) (h : builders) : option (ptr * builders) :=
  a ← cb;
  c ← h !! a;
  Some (cb, <[a := mkComputer cpu (RAM c) (Storage c) (GPU c)]> h).

Definition SetRAM (cb : ptr) (ram : Z) (h : builders) : option (ptr * builders) :=
  a ← cb;
  c ← h !! a;
  Some (cb, <[a := mkComputer (CPU c) ram (Storage c) (GPU c)]> h).

Definition SetStorage (cb : ptr) (storage : string) (h : builders)
    : option (ptr * builders) :=
  a ← cb;
  c ← h !! a;
  Some (cb, <[a := mkComputer (CPU c) (RAM c) storage (GPU c)]> h).

Definition SetGPU (cb : ptr) (gpu : string) (h : builders) : option (ptr * builders) :=
  a ← cb;
  c ← h !! a;
  Some (cb, <[a := mkComputer (CPU c) (RAM c) (Storage c) gpu]> h).

(** [func (cb *ComputerBuilder) Build() Computer]. *)
Definition Build (cb : ptr) (h : builders) : option Computer :=
  a ← cb;
  h !! a.

(** A call of one setter. *)
Inductive setter : Type :=
  | CallSetCPU (cpu : string)
  | CallSetRAM (ram : Z)
  | CallSetStorage (storage : string)
  | CallSetGPU (gpu : string).

Definition call_setter (cb : ptr) (h : builders) (c : setter)
    : option (ptr * builders) :=
  match c with
  | CallSetCPU cpu => SetCPU cb cpu h
  | CallSetRAM ram => SetRAM cb ram h
  | CallSetStorage storage => SetStorage cb storage h
  | CallSetGPU gpu => SetGPU cb gpu h
  end.

(** A chain [cb.Set...(...).Set...(...)]: each setter is called on the
    pointer that the one before it returned. *)
Definition chain_setters (cb : ptr) (h : builders) (cs : list setter)
    : option (ptr * builders) :=
  foldl (λ acc c, '(cb, h) ← acc; call_setter cb h c) (Some (cb, h)) cs.

(** What a chain of setters leaves in a [Computer]: the last value given for
    each field. *)
Definition apply_setter (c : Computer) (s : setter) : Computer :=
  match s with
  | CallSetCPU cpu => mkComputer cpu (RAM c) (Storage c) (GPU c)
  | CallSetRAM ram => mkComputer (CPU c) ram (Storage c) (GPU c)
  | CallSetStorage storage => mkComputer (CPU c) (RAM c) storage (GPU c)
  | CallSetGPU gpu => mkComputer (CPU c) (RAM c) (Storage c) gpu
  end.

End Chapter9Patterns.

(** ** Chapter 9: copying a struct that holds a slice and a map *)

Module Chapter9Sharing.
Import Go.

Definition addr : Type := nat.

(** A [Person] as a value: the slice [Hobbies] is the address of its backing
    array and the map [Metadata] the address of its table, [None] when nil.
    The chapter never reslices or appends to [Hobbies], so the length of the
    slice is the length of the array. *)
Record Person : Type := mkPerson {
  Name : string;
  Age : Z;
  Email : string;
  IsActive : bool;
  Hobbies : option addr;
  Metadata : option addr;
}.

(** The backing arrays and the map tables allocated so far. *)
Record heap : Type := mkHeap {
  arrays : gmap addr (list string);
  tables : gmap addr (gmap string string);
}.

(** The elements of [p.Hobbies], and the entries of [p.Metadata]; a nil
    slice has no elements and a nil map no entries. *)
Definition hobbies_of (p : Person) (h : heap) : list string :=
  default [] (a ← Hobbies p; arrays h !! a).

Definition metadata_of (p : Person) (h : heap) : gmap string string :=
  default ∅ (a ← Metadata p; tables h !! a).

(** [p.Hobbies[i] = v]; [None] is the panic of an index out of range. *)
Definition set_hobby (p : Person) (i : Z) (v : string) (h : heap) : option heap :=
  a ← Hobbies p;
  elements ← arrays h !! a;
  if (0 <=? i) && (i <? Z.of_nat (length elements)) then
    Some (mkHeap (<[a := <[Z.to_nat i := v]> elements]> (arrays h)) (tables h))
  else None.

(** [p.Metadata[k] = v]; [None] is the panic of an assignment to an entry of
    a nil map. *)
Definition set_metadata (p : Person) (k v : string) (h : heap) : option heap :=
  a ← Metadata p;
  entries ← tables h !! a;
  Some (mkHeap (arrays h) (<[a := <[k := v]> entries]> (tables h))).

(** [func (p Person) DeepCopy() Person]: the copy and the heap after the
    call.  [made] is the array of [make([]string, len(p.Hobbies))] and
    [copied] what the builtin [copy] leaves in it; [order] is the order in
    which the loop [for k, v := range p.Metadata] visits the entries. *)
Definition DeepCopy (p : Person) (order : list (string * string)) (h : heap)
    : Person * heap :=
  let hobbiesCopy := fresh (dom (arrays h)) in
  let made := replicate (length (hobbies_of p h)) "" in
  let n := Nat.min (length made) (length (hobbies_of p h)) in
  let copied := take n (hobbies_of p h) ++ drop n made in
  let metadataCopy := fresh (dom (tables h)) in
  let entries := foldl (λ m kv, <[kv.1 := kv.2]> m) ∅ order in
  (mkPerson (Name p) (Age p) (Email p) (IsActive p)
     (Some hobbiesCopy) (Some metadataCopy),
   mkHeap (<[hobbiesCopy := copied]> (arrays h))
          (<[metadataCopy := entries]> (tables h))).

(** The slice and the map of [p], if not nil, are allocated in [h]. *)
Definition allocated (p : Person) (h : heap) : Prop :=
  (∀ a, Hobbies p = Some a → is_Some (arrays h !! a)) ∧
  (∀ a, Metadata p = Some a → is_Some (tables h !! a)).

End Chapter9Sharing.

(** ** Chapter 10: more functions of the chapter *)

Module Chapter10More.
Import Go Chapter10.

(** [func processUserWithContext(user User) error]. *)
Definition processUserWithContext (user : User) : M error :=
  do err <- validateName (Name user);
  match err with
  | Some e =>
      do wrapped <- fmt_Errorf_w "name validation failed: " e; ret (Some wrapped)
  | None =>
      do err <- validateAge (Age user);
      match err with
      | Some e =>
          do wrapped <- fmt_Errorf_w "age validation failed: " e; ret (Some wrapped)
      | None => ret None
      end
  end.

(** [func findUser(id string)], which returns a [*User] and an [error];
    the [*User] is nil or the address of a fresh cell, given with its
    contents. *)
Definition findUser (id : string) : M (option (addr * User) * error) :=
  if String.eqb id "" then
    do e <- errors_New "invalid input"; ret (None, Some e)
  else if String.eqb id "nonexistent" then
    do e <- errors_New "not found"; ret (None, Some e)
  else if String.eqb id "admin" then
    do e <- errors_New "permission denied"; ret (None, Some e)
  else
    do a <- new; ret (Some (a, mkUser id ("User " +:+ id) 0 ""), None).

(** [func (ae *AggregatedError) ErrorCount() int], on the field [Errors]. *)
Definition ErrorCount (Errors : list error_value) : Z := Z.of_nat (length Errors).

(** [func (ae *AggregatedError) HasValidationErrors() bool], on the field
    [Errors]: the loop returns at the first validation error. *)
Fixpoint HasValidationErrors (Errors : list error_value) : bool :=
  match Errors with
  | [] => false
  | err :: rest =>
      if IsValidationError (Some err) then true else HasValidationErrors rest
  end.

(** [func divideByZero(a, b int) int]. *)
Definition divideByZero (a b : Z) : M Z :=
  if b =? 0 then panic "division by zero" else int_div a b.

(** Every cell of an error value lies below the address [n]. *)
Fixpoint below (n : addr) (e : error_value) : Prop :=
  match e with
  | errorString a _ => (a < n)%nat
  | wrapError a _ inner => (a < n)%nat ∧ below n inner
  | ValidationErrorPtr a _ => (a < n)%nat
  | DatabaseErrorPtr a _ => (a < n)%nat
  | AggregatedErrorPtr a _ => (a < n)%nat
  | SimpleErrorVal _ => True
  | StringErrorVal _ => True
  | CodeErrorVal _ => True
  end.

(** The number of checks of [validateUserComprehensive] that [user] fails. *)
Definition failed_checks (user : User) : list string :=
  (if Z.of_nat (String.length (Name user)) <? 2
   then ["name too short: " +:+ Name user +:+ " (minimum 2 characters)"] else [])
  ++ (if Age user <? 18
      then ["age too young: " +:+ fmt_int (Age user) +:+ " (minimum 18)"] else [])
  ++ (if negb (strings_Contains (Email user) "@")
      then ["invalid email format: " +:+ Email user] else []).

End Chapter10More.

(** * Theorems *)

(** ** Chapters 2 and 4: the head of [main] *)

Module ExprFacts.
Import GoExpr.

(** An expression that has a kind has a value, unless it divides by zero. *)
Lemma kind_of_None_eval (e : expr) : kind_of e = None → eval e = None.
Proof.
  assert (Hkind : ∀ e v, eval e = Some v →
            kind_of e = Some match v with
                             | IntVal _ => UntypedInt
                             | StringVal _ => UntypedString
                             end).
  { clear e. induction e as [s|n|op x IHx y IHy]; intros v; simpl.
    - by intros [= <-].
    - by intros [= <-].
    - destruct (eval x) as [vx|]; simpl; [|done].
      destruct (eval y) as [vy|]; simpl; [|done].
      rewrite (IHx vx eq_refl), (IHy vy eq_refl). simpl.
      destruct vx, vy, op; simpl; try done; try (by intros [= <-]).
      destruct (n0 =? 0); [done|by intros [= <-]]. }
  intros Hnone. destruct (eval e) as [v|] eqn:E; [|done].
  apply Hkind in E. congruence.
Qed.

(** C2, on the code of chapters 2 and 4.  The second statement of [main],
    [fmt.Println("=" * 50)], multiplies a string constant by an integer
    constant: the expression has no kind and no value, so neither chapter is
    a well-typed program. *)
Theorem main_head_is_ill_typed :
  kind_of (Binary Mul (StringLit "=") (IntLit 50)) = None ∧
  eval (Binary Mul (StringLit "=") (IntLit 50)) = None ∧
  forallb well_typed chapter2_main_head = false ∧
  forallb well_typed chapter4_main_head = false.
Proof. split_and!; reflexivity. Qed.

End ExprFacts.

(** ** Chapters 7 and 9: [HaveBirthday] *)

Module PersonFacts.
Import Go.

(** The pointer receiver of chapter 9 updates the [Person] it is called on:
    the cell [a] gets its [Age] incremented, keeps its other fields, and no
    other cell changes. *)
Lemma HaveBirthday_pointer_receiver (s : Chapter9.state) (a : Chapter9.addr)
    (p : Chapter9.Person) :
  Chapter9.persons s !! a = Some p →
  ∃ s', Chapter9.HaveBirthday (Some a) s = Some s' ∧
        Chapter9.persons s' !! a =
          Some (Chapter9.mkPerson (Chapter9.Name p) (int_add (Chapter9.Age p) 1)
                  (Chapter9.Email p) (Chapter9.IsActive p) (Chapter9.Hobbies p)
                  (Chapter9.Metadata p)) ∧
        (∀ b, b ≠ a → Chapter9.persons s' !! b = Chapter9.persons s !! b) ∧
        Chapter9.configs s' = Chapter9.configs s ∧
        Chapter9.configInstance s' = Chapter9.configInstance s.
Proof.
  intros Hp. unfold Chapter9.HaveBirthday. simpl. rewrite Hp. simpl.
  eexists. split; [done|]. simpl. split_and!; [|intros b Hb|done|done].
  - by rewrite lookup_insert_eq.
  - by rewrite lookup_insert_ne.
Qed.

Lemma int_add_1 (age : Z) : int_min ≤ age < int_max → int_add age 1 = age + 1.
Proof.
  unfold int_min, int_max, int_add, wrap. intros H.
  rewrite Z.mod_small; lia.
Qed.

(** C7, on the code of chapter 7. [HaveBirthday] has a value receiver there:
    called on Alice, aged 25, it prints that she is now 26, and the variable
    it was called on still holds age 25, as the next line of output shows. *)
Theorem HaveBirthday_value_receiver_drops_update :
  Chapter7.section2_Methods_birthday =
    (Chapter7.mkPerson "Alice" 25 "alice@example.com" true,
     "Hi, I'm Alice and I'm 25 years old.
Happy birthday! Alice is now 26 years old.
After birthday: {Name:Alice Age:25 Email:alice@example.com IsActive:true}
") ∧
  ∀ person, (Chapter7.call_HaveBirthday person).1 = person.
Proof. split; [by vm_compute|done]. Qed.

End PersonFacts.

(** ** Chapter 8: bubble sort *)

Module Chapter8SortFacts.
Import Chapter8Sort.

Section bubble_facts.
Context {A : Type} (gt : A → A → bool).

Hypothesis gt_asym : ∀ x y, gt x y = true → gt y x = false.
Hypothesis ngt_trans : ∀ x y z, ngt gt x y → ngt gt y z → ngt gt x z.

Lemma ngt_refl x : ngt gt x x.
Proof.
  unfold ngt. destruct (gt x x) eqn:E; [|done].
  by rewrite (gt_asym _ _ E) in E.
Qed.

Lemma index_app_here (pre : list A) x rest :
  index (pre ++ x :: rest) (Z.of_nat (length pre)) = Some x.
Proof.
  unfold index. destruct (Z.ltb_spec (Z.of_nat (length pre)) 0); [lia|].
  rewrite Nat2Z.id. by apply list_lookup_middle.
Qed.

Lemma store_app_here (pre : list A) x y rest :
  store (pre ++ x :: rest) (Z.of_nat (length pre)) y = pre ++ y :: rest.
Proof.
  unfold store. rewrite Nat2Z.id.
  rewrite insert_app_r_alt by lia. by rewrite Nat.sub_diag.
Qed.

Lemma compare_swap_middle (pre : list A) x y rest :
  compare_swap gt (pre ++ x :: y :: rest) (Z.of_nat (length pre)) =
  Some (if gt x y then pre ++ y :: x :: rest else pre ++ x :: y :: rest).
Proof.
  unfold compare_swap. rewrite index_app_here.
  assert (Hnext : Z.of_nat (length pre) + 1 = Z.of_nat (length (pre ++ [x]))).
  { rewrite length_app. simpl. lia. }
  rewrite Hnext.
  replace (pre ++ x :: y :: rest) with ((pre ++ [x]) ++ y :: rest)
    by (by rewrite <- app_assoc).
  rewrite index_app_here.
  destruct (gt x y); [|done].
  rewrite <- Hnext.
  replace ((pre ++ [x]) ++ y :: rest) with (pre ++ x :: y :: rest)
    by (by rewrite <- app_assoc).
  rewrite store_app_here.
  replace (pre ++ y :: y :: rest) with ((pre ++ [y]) ++ y :: rest)
    by (by rewrite <- app_assoc).
  replace (Z.of_nat (length pre) + 1) with (Z.of_nat (length (pre ++ [y])))
    by (rewrite length_app; simpl; lia).
  rewrite store_app_here. by rewrite <- app_assoc.
Qed.

(** The inner loop, entered at [j] with [x] under index [j], bubbles [x]
    through the [todo] elements that the loop still visits and leaves the
    [tail] beyond them alone. *)
Lemma inner_loop_bubble todo : ∀ fuel (pre : list A) x tail i,
  (length todo ≤ fuel)%nat →
  i = Z.of_nat (length tail) →
  inner_loop gt fuel (pre ++ x :: todo ++ tail) i (Z.of_nat (length pre)) =
  Done (pre ++ bubble gt x todo ++ tail).
Proof.
  induction todo as [|y todo IH]; intros fuel pre x tail i Hfuel ->.
  - assert (Hstop : (Z.of_nat (length pre) <?
      Z.of_nat (length (pre ++ x :: [] ++ tail)) - Z.of_nat (length tail) - 1) = false).
    { apply Z.ltb_ge. rewrite length_app. simpl. lia. }
    destruct fuel; simpl; simpl in Hstop; by rewrite Hstop.
  - destruct fuel as [|fuel]; [simpl in Hfuel; lia|].
    assert (Hgo : (Z.of_nat (length pre) <?
      Z.of_nat (length (pre ++ x :: (y :: todo) ++ tail)) - Z.of_nat (length tail) - 1) = true).
    { apply Z.ltb_lt. rewrite length_app. simpl. rewrite length_app. lia. }
    simpl. simpl in Hgo. rewrite Hgo. rewrite compare_swap_middle.
    simpl in Hfuel.
    destruct (gt x y).
    + replace (pre ++ y :: x :: todo ++ tail) with ((pre ++ [y]) ++ x :: todo ++ tail)
        by (by rewrite <- app_assoc).
      replace (Z.of_nat (length pre) + 1) with (Z.of_nat (length (pre ++ [y])))
        by (rewrite length_app; simpl; lia).
      rewrite IH by (done || lia). by rewrite <- app_assoc.
    + replace (pre ++ x :: y :: todo ++ tail) with ((pre ++ [x]) ++ y :: todo ++ tail)
        by (by rewrite <- app_assoc).
      replace (Z.of_nat (length pre) + 1) with (Z.of_nat (length (pre ++ [x])))
        by (rewrite length_app; simpl; lia).
      rewrite IH by (done || lia). by rewrite <- app_assoc.
Qed.

(** A pass moves a greatest element to the end and only permutes. *)
Lemma bubble_max rest : ∀ x,
  ∃ front m, bubble gt x rest = front ++ [m] ∧ ngt gt x m ∧
             Forall (λ a, ngt gt a m) front ∧ x :: rest ≡ₚ front ++ [m].
Proof.
  induction rest as [|y rest IH]; intros x.
  - exists [], x. simpl. split_and!; [done|apply ngt_refl|constructor|done].
  - simpl. destruct (gt x y) eqn:E.
    + destruct (IH x) as (front & m & -> & Hx & Hall & Hperm).
      exists (y :: front), m. split_and!; [done|done| |].
      * constructor; [|done]. apply ngt_trans with x; [by apply gt_asym|done].
      * simpl. rewrite <- Hperm. apply perm_swap.
    + destruct (IH y) as (front & m & -> & Hy & Hall & Hperm).
      exists (x :: front), m. split_and!; [done| | |].
      * by apply ngt_trans with y.
      * constructor; [|done]. by apply ngt_trans with y.
      * simpl. by rewrite <- Hperm.
Qed.

Lemma outer_loop_go fuel (nums : list A) i :
  (i <? Z.of_nat (length nums) - 1) = true →
  outer_loop gt (S fuel) nums i =
  match inner_loop gt (length nums) nums i 0 with
  | Done nums' => outer_loop gt fuel nums' (i + 1)
  | IndexPanic => IndexPanic
  | OutOfFuel => OutOfFuel
  end.
Proof. intros H. cbn [outer_loop]. by rewrite H. Qed.

(** The outer loop keeps a sorted suffix of [i] elements that none of the
    elements before it exceeds. *)
Lemma outer_loop_sorts n : ∀ fuel (pre suf : list A) i,
  length pre = n → (n ≤ fuel)%nat → i = Z.of_nat (length suf) →
  Sorted (ngt gt) suf →
  Forall (λ a, Forall (ngt gt a) suf) pre →
  ∃ out, outer_loop gt fuel (pre ++ suf) i = Done out ∧
         Sorted (ngt gt) out ∧ pre ++ suf ≡ₚ out.
Proof.
  induction n as [n IH] using lt_wf_ind.
  intros fuel pre suf i Hlen Hfuel -> Hsorted Hbelow.
  destruct pre as [|x todo].
  { exists suf. split_and!; [|done|done].
    assert (Hstop : (Z.of_nat (length suf) <? Z.of_nat (length ([] ++ suf)) - 1) = false)
      by (apply Z.ltb_ge; simpl; lia).
    destruct fuel; simpl; simpl in Hstop; by rewrite Hstop. }
  destruct todo as [|y todo].
  { exists (x :: suf). split_and!; [| |done].
    - assert (Hstop : (Z.of_nat (length suf) <? Z.of_nat (length ([x] ++ suf)) - 1) = false)
        by (apply Z.ltb_ge; simpl; lia).
      destruct fuel; simpl; simpl in Hstop; by rewrite Hstop.
    - constructor; [done|]. apply Forall_cons_1 in Hbelow as [Hx _].
      destruct suf; constructor. by apply Forall_cons_1 in Hx as [? _]. }
  simpl in Hlen. destruct fuel as [|fuel]; [lia|].
  assert (Hgo : (Z.of_nat (length suf) <?
    Z.of_nat (length ((x :: y :: todo) ++ suf)) - 1) = true).
  { apply Z.ltb_lt. rewrite length_app. simpl. lia. }
  rewrite outer_loop_go by done.
  rewrite (inner_loop_bubble (y :: todo) _ [] x suf);
    [|rewrite length_app; simpl; lia|done].
  rewrite app_nil_l.
  destruct (bubble_max (y :: todo) x) as (front & m & Hb & _ & Hfront & Hperm).
  rewrite Hb.
  assert (Hm : m ∈ x :: y :: todo)
    by (rewrite Hperm; apply elem_of_app; right; apply list_elem_of_singleton; done).
  assert (Hmsuf : Forall (ngt gt m) suf).
  { rewrite Forall_forall in Hbelow. by apply Hbelow. }
  assert (Hflen : length front = S (length todo)).
  { apply Permutation_length in Hperm. rewrite length_app in Hperm.
    simpl in Hperm. lia. }
  destruct (IH (length front) ltac:(lia) fuel front (m :: suf)
              (Z.of_nat (length suf) + 1)) as (out & Hout & Hs & Hp).
  - done.
  - lia.
  - simpl. lia.
  - constructor; [done|]. destruct suf; constructor.
    by apply Forall_cons_1 in Hmsuf as [? _].
  - rewrite Forall_forall. intros a Ha. constructor.
    + rewrite Forall_forall in Hfront. by apply Hfront.
    + assert (Ha' : a ∈ x :: y :: todo)
        by (rewrite Hperm; apply elem_of_app; by left).
      rewrite Forall_forall in Hbelow. by apply Hbelow.
  - exists out. replace ((front ++ [m]) ++ suf) with (front ++ m :: suf)
      by (by rewrite <- app_assoc).
    split_and!; [done|done|].
    rewrite <- Hp.
    change (x :: y :: todo ++ suf) with ((x :: y :: todo) ++ suf).
    rewrite Hperm. by rewrite <- app_assoc.
Qed.

Lemma bubble_sort_sorts (nums : list A) :
  ∃ out, bubble_sort gt nums = Done out ∧ Sorted (ngt gt) out ∧ nums ≡ₚ out.
Proof.
  destruct (outer_loop_sorts (length nums) (length nums) nums [] 0)
    as (out & Hout & Hs & Hp); [done|done|done|constructor| |].
  - apply Forall_forall. intros a _. apply Forall_nil_2.
  - rewrite app_nil_r in Hout, Hp. by exists out.
Qed.
End bubble_facts.


(** The two instances of the order. *)
Lemma int_gt_asym x y : int_gt x y = true → int_gt y x = false.
Proof. unfold int_gt. lia. Qed.

Lemma int_ngt_le x y : ngt int_gt x y ↔ x ≤ y.
Proof. unfold ngt, int_gt. lia. Qed.

Lemma int_ngt_trans x y z : ngt int_gt x y → ngt int_gt y z → ngt int_gt x z.
Proof. rewrite !int_ngt_le. lia. Qed.

Lemma string_gt_asym x y : string_gt x y = true → string_gt y x = false.
Proof.
  unfold string_gt. rewrite (String.compare_antisym y x).
  by destruct (String.compare x y).
Qed.

Lemma string_le_trans x : ∀ y z, string_le x y → string_le y z → string_le x z.
Proof.
  unfold string_le, ngt, string_gt.
  induction x as [|a x IH]; intros [|b y] [|c z]; simpl; try done.
  unfold Ascii.compare.
  destruct (N.compare_spec (Ascii.N_of_ascii a) (Ascii.N_of_ascii b)) as [Hab|Hab|Hab];
    destruct (N.compare_spec (Ascii.N_of_ascii b) (Ascii.N_of_ascii c)) as [Hbc|Hbc|Hbc];
    try done.
  - rewrite Hab, Hbc, N.compare_refl. apply IH.
  - intros _ _. rewrite Hab. by apply N.compare_lt_iff in Hbc as ->.
  - intros _ _. rewrite <- Hbc. by apply N.compare_lt_iff in Hab as ->.
  - intros _ _. assert (H : (Ascii.N_of_ascii a < Ascii.N_of_ascii c)%N) by lia.
    by apply N.compare_lt_iff in H as ->.
Qed.

Lemma string_le_antisym x y : string_le x y → string_le y x → x = y.
Proof.
  unfold string_le, ngt, string_gt. intros Hxy Hyx.
  apply String.leb_antisym; unfold String.leb.
  - by destruct (String.compare x y).
  - by destruct (String.compare y x).
Qed.

#[local] Instance string_le_transitive : Transitive string_le.
Proof. intros x y z. apply string_le_trans. Qed.

#[local] Instance string_le_antisymm : AntiSymm (=) string_le.
Proof. intros x y. apply string_le_antisym. Qed.

Lemma Sorted_int_ngt (l : list Z) : Sorted (ngt int_gt) l → Sorted Z.le l.
Proof.
  induction 1 as [|x l _ IH Hhd]; constructor; [done|].
  destruct Hhd; constructor. by apply int_ngt_le.
Qed.

(** C5. For every slice of ints, [sortInts] runs to completion and leaves a
    nondecreasing permutation of the original contents, which is the result of
    every sorting function (every nondecreasing permutation of the input is
    that list); likewise [sortStrings] for every slice of strings, in the
    bytewise order of Go strings. *)
Theorem sort_helpers_sort :
  (∀ nums : list Z, ∃ out,
      sortInts nums = Done out ∧ Sorted Z.le out ∧ nums ≡ₚ out ∧
      ∀ other, Sorted Z.le other → nums ≡ₚ other → other = out) ∧
  (∀ strs : list string, ∃ out,
      sortStrings strs = Done out ∧ Sorted string_le out ∧ strs ≡ₚ out ∧
      ∀ other, Sorted string_le other → strs ≡ₚ other → other = out).
Proof.
  split.
  - intros nums.
    destruct (bubble_sort_sorts int_gt int_gt_asym int_ngt_trans nums)
      as (out & Hrun & Hsorted & Hperm).
    apply Sorted_int_ngt in Hsorted.
    exists out. split_and!; [done|done|done|].
    intros other Hother Hp. apply (Sorted_unique Z.le); [done|done|].
    by rewrite <- Hp.
  - intros strs.
    destruct (bubble_sort_sorts string_gt string_gt_asym string_le_trans strs)
      as (out & Hrun & Hsorted & Hperm).
    exists out. split_and!; [done|done|done|].
    intros other Hother Hp. apply (Sorted_unique string_le); [done|done|].
    by rewrite <- Hp.
Qed.

Lemma sort_helpers_sort_witness :
  ∃ out, sortInts [3; 1; 2] = Done out ∧ [1; 2; 3] = out.
Proof.
  destruct (proj1 sort_helpers_sort [3; 1; 2]) as (out & Hrun & _ & _ & Hsame).
  exists out. split; [exact Hrun|]. apply Hsame.
  - repeat constructor; lia.
  - apply (Permutation_cons_app [1; 2] []). reflexivity.
Defined.

End Chapter8SortFacts.

(** ** Chapter 8: [File] *)

Module Chapter8FileFacts.
Import Chapter8File.

Lemma length_list_byte_of_string (s : string) :
  length (String.list_byte_of_string s) = String.length s.
Proof.
  unfold String.list_byte_of_string. rewrite length_map.
  induction s as [|a s IH]; simpl; [done|by rewrite IH].
Qed.

Lemma copy_length (dst src : list Byte.byte) :
  length (copy dst src).1 = length dst.
Proof.
  unfold copy. simpl. rewrite length_app, length_take, length_drop. lia.
Qed.

(** C10. On an open [File], [Read] returns [n = len(f.Content)] and a nil
    error whatever the length of the buffer [p]; the buffer keeps its length
    and receives [copy]'s count of bytes, which is [len(p)] and strictly less
    than [n] when [len(p) < len(f.Content)]. *)
Theorem Read_reports_content_length (f : File) (p : list Byte.byte) :
  IsOpen f = true →
  let src := String.list_byte_of_string (Content f) in
  Read f p = ((copy p src).1, len (Content f), None) ∧
  length (copy p src).1 = length p ∧
  (Z.of_nat (length p) < len (Content f) →
   (copy p src).2 = Z.of_nat (length p) ∧ (copy p src).2 < (Read f p).1.2).
Proof.
  intros Hopen src. unfold Read. rewrite Hopen. simpl.
  split; [done|]. split; [apply copy_length|].
  unfold len. intros Hshort. unfold src.
  rewrite length_list_byte_of_string. lia.
Qed.

Lemma Read_reports_content_length_witness :
  IsOpen document = true ∧
  Read document [] = ([], 10, None) ∧
  (copy [] (String.list_byte_of_string (Content document))).2 = 0.
Proof.
  split; [reflexivity|].
  destruct (Read_reports_content_length document [] eq_refl) as (Hr & _ & Hc).
  split; [exact Hr|].
  destruct Hc as [Hc _]; [vm_compute; reflexivity|exact Hc].
Defined.

Lemma call_IsOpen (f : File) (op : FileOp) :
  IsOpen (call f op).1 = IsOpen f && negb (is_close op).
Proof.
  destruct f as [name content [|]], op as [p|p|]; by cbv.
Qed.

Lemma call_error (f : File) (op : FileOp) :
  (call f op).2 = None ↔ IsOpen f = true.
Proof.
  destruct f as [name content [|]], op as [p|p|]; by cbv.
Qed.

Lemma after_snoc (f : File) (history : list FileOp) (op : FileOp) :
  after f (history ++ [op]) = (call (after f history) op).1.
Proof. unfold after. by rewrite foldl_snoc. Qed.

Lemma after_IsOpen (f : File) (history : list FileOp) :
  IsOpen (after f history) = true ↔ IsOpen f = true ∧ OpClose ∉ history.
Proof.
  induction history as [|op history IH] using rev_ind.
  - simpl. split; [intros ?; split; [done|apply not_elem_of_nil]|by intros [? _]].
  - rewrite after_snoc, call_IsOpen, andb_true_iff, IH, not_elem_of_app.
    rewrite negb_true_iff, not_elem_of_cons.
    split.
    + intros [[? ?] Hop]. split_and!; [done|done| |apply not_elem_of_nil].
      by intros <-.
    + intros (? & ? & Hop & _). split_and!; [done|done|]. by destruct op.
Qed.

(** C6, as the code has it. [File] carries an open/closed lifecycle: on a
    [File] that starts open, a call of [Read], [Write] or [Close] returns a
    nil error exactly when no [Close] was called on it before. *)
Theorem File_lifecycle (f : File) (history : list FileOp) (op : FileOp) :
  IsOpen f = true →
  (call (after f history) op).2 = None ↔ OpClose ∉ history.
Proof.
  intros Hopen. rewrite call_error, after_IsOpen.
  split; [by intros [_ ?]|by intros ?].
Qed.

Lemma File_lifecycle_witness :
  IsOpen document = true ∧
  ((call (after document [OpRead []; OpWrite []]) OpClose).2 = None ↔
   OpClose ∉ [OpRead []; OpWrite []]).
Proof.
  split; [reflexivity|].
  apply (File_lifecycle document [OpRead []; OpWrite []] OpClose). reflexivity.
Defined.

(** C6, as the claim states it, fails on the file of chapter 8: [Read]
    succeeds on it, and fails once [Close] has been called. *)
Lemma File_results_depend_on_history : ¬ results_ignore_history.
Proof.
  intros H. specialize (H document [OpClose] (OpRead [])).
  vm_compute in H. discriminate H.
Qed.

End Chapter8FileFacts.

(** ** Chapter 9: the [Config] singleton *)

Module ConfigFacts.
Import Chapter9.

Lemma GetConfig_instance (s : state) :
  instance_allocated s →
  ∃ a, (GetConfig s).1 = Some a ∧ configInstance (GetConfig s).2 = Some a ∧
       is_Some (configs (GetConfig s).2 !! a) ∧
       instance_allocated (GetConfig s).2.
Proof.
  intros Hwf. unfold GetConfig. destruct (configInstance s) as [a|] eqn:E; simpl.
  - exists a. rewrite E. split_and!; [done|done|by apply Hwf|done].
  - eexists. split_and!; [done|done| |].
    + rewrite lookup_insert_eq. by eexists.
    + intros a [= <-]. simpl. rewrite lookup_insert_eq. by eexists.
Qed.

Lemma GetConfig_again (s : state) (a : addr) :
  configInstance s = Some a → GetConfig s = (Some a, s).
Proof. intros E. unfold GetConfig. by rewrite E. Qed.

Lemma GetConfig_first (s : state) :
  configInstance s = None →
  ∃ a, GetConfig s = (Some a, (GetConfig s).2) ∧ configs s !! a = None.
Proof.
  intros E. unfold GetConfig. rewrite E. simpl. eexists. split; [done|].
  apply not_elem_of_dom, is_fresh.
Qed.

Lemma SetTheme_instance (c : ptr) (theme : string) (s s' : state) :
  SetTheme c theme s = Some s' →
  configInstance s' = configInstance s ∧
  (instance_allocated s → instance_allocated s').
Proof.
  unfold SetTheme. destruct c as [a|]; simpl; [|done].
  destruct (configs s !! a) as [old|] eqn:E; simpl; [|done].
  intros [= <-]. simpl. split; [done|].
  intros Hwf b Hb. simpl in *. destruct (decide (a = b)) as [->|Hne].
  - rewrite lookup_insert_eq. by eexists.
  - rewrite lookup_insert_ne by done. by apply Hwf.
Qed.

Lemma do_call_instance (s s' : state) (c : config_call) (a : addr) :
  do_call s c = Some s' → instance_allocated s → configInstance s = Some a →
  instance_allocated s' ∧ configInstance s' = Some a.
Proof.
  destruct c as [|c theme|c]; simpl.
  - intros [= <-] Hwf E. rewrite (GetConfig_again s a E). by simpl.
  - intros Hset Hwf E. apply SetTheme_instance in Hset as [-> Hwf'].
    split; [by apply Hwf'|done].
  - destruct (GetTheme c s); simpl; [|done]. by intros [= <-].
Qed.

Lemma do_calls_snoc (s : state) (cs : list config_call) (c : config_call) :
  do_calls s (cs ++ [c]) = (s' ← do_calls s cs; do_call s' c).
Proof. unfold do_calls. by rewrite foldl_snoc. Qed.

Lemma do_calls_instance (cs : list config_call) : ∀ (s s' : state) (a : addr),
  do_calls s cs = Some s' → instance_allocated s → configInstance s = Some a →
  instance_allocated s' ∧ configInstance s' = Some a.
Proof.
  induction cs as [|c cs IH] using rev_ind; intros s s' a.
  - by intros [= <-].
  - rewrite do_calls_snoc.
    destruct (do_calls s cs) as [s1|] eqn:E1; simpl; [|done].
    intros Hc Hwf Ha. destruct (IH s s1 a E1 Hwf Ha) as [Hwf1 Ha1].
    by apply (do_call_instance s1 s' c a).
Qed.

Lemma do_calls_allocated (cs : list config_call) : ∀ (s s' : state),
  do_calls s cs = Some s' → instance_allocated s → instance_allocated s'.
Proof.
  induction cs as [|c cs IH] using rev_ind; intros s s'.
  - by intros [= <-].
  - rewrite do_calls_snoc.
    destruct (do_calls s cs) as [s1|] eqn:E1; simpl; [|done].
    intros Hc Hwf. specialize (IH s s1 E1 Hwf).
    destruct (configInstance s1) as [a|] eqn:Ea.
    + by apply (do_call_instance s1 s' c a).
    + destruct c as [|c theme|c]; simpl in Hc.
      * injection Hc as <-.
        by destruct (GetConfig_instance s1 IH) as (? & _ & _ & _ & ?).
      * apply SetTheme_instance in Hc as [_ Hwf']. by apply Hwf'.
      * destruct (GetTheme c s1); simpl in Hc; [|done]. by injection Hc as <-.
Qed.

(** C8. [GetConfig] is a singleton accessor.  In a run of the program, a
    call of [GetConfig] returns a non-nil pointer [p] to an allocated
    [Config]; it allocates exactly when [configInstance] was still nil; after
    any further calls of [GetConfig], [SetTheme] and [GetTheme], [GetConfig]
    returns [p] again and changes nothing; and a theme set through [p] is the
    theme read through the result of any later call of [GetConfig]. *)
Theorem GetConfig_singleton (before between : list config_call)
    (s0 s2 : state) (theme : string) :
  do_calls start before = Some s0 →
  do_calls (GetConfig s0).2 between = Some s2 →
  ∃ a, (GetConfig s0).1 = Some a ∧
       is_Some (configs (GetConfig s0).2 !! a) ∧
       (configInstance s0 = None → configs s0 !! a = None) ∧
       (configInstance s0 ≠ None → (GetConfig s0).2 = s0) ∧
       GetConfig s2 = (Some a, s2) ∧
       ∃ s3, SetTheme (Some a) theme s2 = Some s3 ∧
             GetTheme (GetConfig s3).1 (GetConfig s3).2 = Some theme.
Proof.
  intros Hbefore Hbetween.
  assert (Hwf0 : instance_allocated s0).
  { apply (do_calls_allocated before start s0 Hbefore). by intros a. }
  destruct (GetConfig_instance s0 Hwf0) as (a & Hp & Ha & Halloc & Hwf1).
  exists a.
  destruct (do_calls_instance between _ s2 a Hbetween Hwf1 Ha) as [Hwf2 Ha2].
  split_and!; [done|done| | |by apply GetConfig_again|].
  - intros Hnil. destruct (GetConfig_first s0 Hnil) as (b & Hb & Hfresh).
    rewrite Hb in Hp. simpl in Hp. by injection Hp as <-.
  - intros Hset. destruct (configInstance s0) as [b|] eqn:Eb; [|done].
    by rewrite (GetConfig_again s0 b Eb).
  - destruct (Hwf2 a Ha2) as [old Hold].
    unfold SetTheme. simpl. rewrite Hold. simpl. eexists. split; [done|].
    rewrite (GetConfig_again _ a) by done. simpl.
    unfold GetTheme. simpl. by rewrite lookup_insert_eq.
Qed.

Lemma GetConfig_singleton_witness :
  ∃ a, (GetConfig start).1 = Some a ∧
       ∃ s3, SetTheme (Some a) "dark" (GetConfig (GetConfig start).2).2 = Some s3 ∧
             GetTheme (GetConfig s3).1 (GetConfig s3).2 = Some "dark".
Proof.
  destruct (GetConfig_singleton [] [CallGetConfig] start
              (GetConfig (GetConfig start).2).2 "dark" eq_refl eq_refl)
    as (a & Hp & _ & _ & _ & _ & Hs3).
  exists a. split; [exact Hp|exact Hs3].
Defined.

End ConfigFacts.

(** ** Chapter 10: wrapped errors *)

Module ErrorFacts.
Import Go Chapter10.

Lemma chain_Unwrap (err : error) :
  chain err = match err with
              | Some e => e :: chain (Unwrap err)
              | None => []
              end.
Proof. destruct err as [[]|]; reflexivity. Qed.

Lemma as_loop_links (T : go_type) (e : error_value) :
  is_Some (as_loop e T) ↔ ∃ link, link ∈ links e ∧ TypeOf link = T.
Proof.
  induction e as [a s|a msg inner IH|a v|a d|a errs|m|s|c];
    cbn [as_loop links]; case_decide as Hty;
    try (split; [intros _; eexists; split; [apply list_elem_of_here|done]
                |intros _; by eexists]);
    try (split; [by intros [? [=]]
                |intros (link & Hin & Hlink);
                 apply list_elem_of_singleton in Hin as ->; done]).
  rewrite IH. split.
  - intros (link & Hin & Hlink). exists link. split; [by apply list_elem_of_further|done].
  - intros (link & Hin & Hlink). apply elem_of_cons in Hin as [->|Hin]; [done|].
    by exists link.
Qed.

Lemma IsValidationError_chain (err : error) :
  IsValidationError err = true ↔
  ∃ link, link ∈ chain err ∧ TypeOf link = T_ValidationError.
Proof.
  unfold IsValidationError. rewrite bool_decide_eq_true.
  destruct err as [e|]; simpl.
  - apply as_loop_links.
  - split; [by intros [? [=]]|]. intros (link & Hin & _).
    by apply not_elem_of_nil in Hin.
Qed.

(** C4. Whatever was allocated before, the chain of
    [section5_AdvancedErrorPatterns] is built without a panic;
    [errors.Is(apiErr, originalErr)] is true; [errors.Unwrap] leads from
    [apiErr] to [serviceErr], [dbErr], [originalErr] and then nil.  For every
    error, [errors.As] finds a [*ValidationError] exactly when some link of
    its chain is a [*ValidationError]. *)
Theorem wrapped_error_chain :
  (∀ w : world, ∃ originalErr dbErr serviceErr apiErr w',
      section5_ErrorWrapping w = (Ok (originalErr, dbErr, serviceErr, apiErr), w') ∧
      Is (Some apiErr) (Some originalErr) = true ∧
      Unwrap (Some apiErr) = Some serviceErr ∧
      Unwrap (Some serviceErr) = Some dbErr ∧
      Unwrap (Some dbErr) = Some originalErr ∧
      Unwrap (Some originalErr) = None) ∧
  (∀ err : error,
      IsValidationError err = true ↔
      ∃ link, link ∈ chain err ∧ TypeOf link = T_ValidationError).
Proof.
  split; [|apply IsValidationError_chain].
  intros w.
  destruct (section5_ErrorWrapping w) as [r w'] eqn:Hrun.
  destruct w as [n c t st out err].
  vm_compute in Hrun. injection Hrun as <- <-.
  do 5 eexists. split; [reflexivity|].
  split_and!; try reflexivity.
  cbn. by rewrite Nat.eqb_refl.
Qed.

(** [errors.Is] compares identities, not messages: an error made later with
    the text of [originalErr] is not in the chain of [apiErr]. *)
Lemma Is_distinguishes_equal_messages :
  ∃ apiErr other w,
    (do chain <- section5_ErrorWrapping;
     do other <- errors_New "connection timeout";
     ret (chain.2, other)) (frozen 0) = (Ok (apiErr, other), w) ∧
    Is (Some apiErr) (Some other) = false.
Proof. do 3 eexists. split; [by vm_compute|done]. Qed.

End ErrorFacts.

(** ** Chapter 10: [divideSafely] and [safeDivide] *)

Module DivideFacts.
Import Go Chapter10.

(** C9. For all ints [a] and [b]: if [b] is nonzero, [divideSafely] and
    [safeDivide] both return [(a/b, nil)] and change nothing; if [b] is
    zero, both return a zero result with a non-nil error, whose text tells
    the two functions apart.  [safeDivide] never panics: its deferred call
    recovers the panic raised for a zero [b]. *)
Theorem safeDivide_matches_divideSafely (a b : Z) (w : world) :
  (b ≠ 0 →
   divideSafely a b w = (Ok (int_quo a b, None), w) ∧
   safeDivide a b w = (Ok (int_quo a b, None), w)) ∧
  (b = 0 →
   ∃ e1 e2 w1 w2,
     divideSafely a b w = (Ok (0, Some e1), w1) ∧
     safeDivide a b w = (Ok (0, Some e2), w2) ∧
     Error e1 = "division by zero" ∧
     Error e2 = "panic recovered: division by zero" ∧
     stdout w1 = stdout w ∧ stdout w2 = stdout w ∧
     stderr w1 = stderr w ∧ stderr w2 = stderr w) ∧
  (∃ r w', safeDivide a b w = (Ok r, w')).
Proof.
  unfold divideSafely, safeDivide, with_defer, int_div.
  destruct (Z.eqb_spec b 0) as [->|Hb].
  - split_and!; [done| |by do 2 eexists].
    intros _. do 4 eexists. by split_and!.
  - split_and!; [done|done|by do 2 eexists].
Qed.

Lemma safeDivide_matches_divideSafely_witness :
  (divideSafely 10 2 (frozen 0) = (Ok (5, None), frozen 0) ∧
   safeDivide 10 2 (frozen 0) = (Ok (5, None), frozen 0)) ∧
  (∃ e1 e2 w1 w2,
     divideSafely 10 0 (frozen 0) = (Ok (0, Some e1), w1) ∧
     safeDivide 10 0 (frozen 0) = (Ok (0, Some e2), w2) ∧
     Error e1 = "division by zero" ∧
     Error e2 = "panic recovered: division by zero" ∧
     stdout w1 = "" ∧ stdout w2 = "" ∧ stderr w1 = "" ∧ stderr w2 = "").
Proof.
  split.
  - apply (safeDivide_matches_divideSafely 10 2 (frozen 0)). lia.
  - apply (safeDivide_matches_divideSafely 10 0 (frozen 0)). reflexivity.
Defined.

End DivideFacts.

(** ** Chapter 10: what is written where *)

Module StreamFacts.
Import Go Chapter10.

Lemma append_empty_r (s : string) : s +:+ "" = s.
Proof.
  induction s as [|a s IH]; [done|].
  change (String a (s +:+ "") = String a s). by rewrite IH.
Qed.

Lemma processUser_stderr (user : User) (w : world) :
  stderr (processUser user w).2 = stderr w.
Proof.
  unfold processUser.
  repeat match goal with |- context [if ?c then _ else _] => destruct c end;
    reflexivity.
Qed.

Lemma processUser_returns (user : User) (w : world) :
  ∃ err, (processUser user w).1 = Ok err ∧
         ticks (processUser user w).2 = ticks w ∧
         clock (processUser user w).2 = clock w ∧
         stamp (processUser user w).2 = stamp w.
Proof.
  unfold processUser.
  repeat match goal with |- context [if ?c then _ else _] => destruct c end;
    by eexists.
Qed.

(** C3, as the code has it. [processUser] writes nothing to standard error.
    [handleUserSubmission] appends one line to standard error, through
    [log.Printf], exactly when [processUser] returns an error, and
    [processUserWithErrorTypes] does when the user is at least 18, the
    simulated database connection always failing. *)
Theorem logging_writes_to_stderr (user : User) (w : world) :
  stderr (processUser user w).2 = stderr w ∧
  stderr (handleUserSubmission user w).2 =
    stderr w +:+
    match (processUser user w).1 with
    | Ok (Some e) =>
        stamp w (clock w (ticks w)) +:+
        ("User submission failed: " +:+ Error e) +:+ newline
    | _ => ""
    end ∧
  stderr (processUserWithErrorTypes user w).2 =
    stderr w +:+
    (if Age user <? 18 then ""
     else stamp w (clock w (ticks w)) +:+
          "Database connection failed: database error in CONNECT on table N/A: connection refused (code: 1001)"
          +:+ newline).
Proof.
  split; [apply processUser_stderr|]. split.
  - unfold handleUserSubmission, bind.
    pose proof (processUser_stderr user w) as Herr.
    destruct (processUser_returns user w) as (err & Hret & Hticks & Hclock & Hstamp).
    destruct (processUser user w) as [r w1]. simpl in *. subst r.
    destruct err as [e|]; simpl.
    + unfold log_Printf, bind, time_Now_UnixNano. simpl.
      destruct (IsValidationError (Some e)); simpl;
        by rewrite Herr, Hticks, Hclock, Hstamp.
    + by rewrite Herr, append_empty_r.
  - unfold processUserWithErrorTypes, validateUserAge, bind.
    destruct (Age user <? 18); simpl; [by rewrite append_empty_r|done].
Qed.

(** C3, as the claim states it, fails on the user of section 6: she is 15,
    [processUser] rejects her, and the rejection is logged. *)
Lemma handleUserSubmission_writes_stderr : ¬ writes_only_stdout.
Proof.
  intros H. specialize (H alice (frozen 1700000000000000000)).
  vm_compute in H. discriminate H.
Qed.

End StreamFacts.

(** ** Chapters 6 and 10: what the output depends on *)

Module OutputFacts.
Import Go.

Lemma respects_ret {A : Type} (a : A) : Chapter10.respects (Chapter10.ret a).
Proof. by intros w1 w2 H. Qed.

Lemma respects_bind {A B : Type} (m : Chapter10.M A) (k : A → Chapter10.M B) :
  Chapter10.respects m → (∀ a, Chapter10.respects (k a)) →
  Chapter10.respects (Chapter10.bind m k).
Proof.
  intros Hm Hk w1 w2 H. unfold Chapter10.bind.
  destruct (Hm w1 w2 H) as [Hr Hw].
  destruct (m w1) as [r1 w1'], (m w2) as [r2 w2']. simpl in *. subst r2.
  destruct r1 as [a|v]; [by apply Hk|done].
Qed.

Lemma respects_fmt_Print (text : string) :
  Chapter10.respects (Chapter10.fmt_Print text).
Proof.
  intros w1 w2 (Hn & Ht & Ho & Hc). split; [done|].
  unfold Chapter10.alike. simpl. by rewrite Ho.
Qed.

Lemma respects_errors_New (text : string) :
  Chapter10.respects (Chapter10.errors_New text).
Proof.
  intros w1 w2 (Hn & Ht & Ho & Hc).
  unfold Chapter10.errors_New, Chapter10.bind, Chapter10.new, Chapter10.ret,
    Chapter10.alike. simpl. by rewrite Hn.
Qed.

Lemma respects_simulateUnreliableOperation :
  Chapter10.respects Chapter10.simulateUnreliableOperation.
Proof.
  intros w1 w2 (Hn & Ht & Ho & Hc).
  unfold Chapter10.simulateUnreliableOperation, Chapter10.errors_New,
    Chapter10.bind, Chapter10.time_Now_UnixNano, Chapter10.new, Chapter10.ret,
    Chapter10.alike.
  simpl. rewrite Ht, Hc.
  destruct (Chapter10.unlucky _); simpl; rewrite ?Hn; by split_and!.
Qed.

Lemma respects_retry_loop (operation : Chapter10.M Chapter10.error) (maxAttempts : Z)
    (todo : nat) : ∀ attempt,
  Chapter10.respects operation →
  Chapter10.respects (Chapter10.retry_loop todo attempt maxAttempts operation).
Proof.
  induction todo as [|todo IH]; intros attempt Hop; simpl.
  - apply respects_ret.
  - apply respects_bind; [apply respects_fmt_Print|]. intros _.
    apply respects_bind; [done|]. intros [e|].
    + apply respects_bind; [apply respects_fmt_Print|]. intros _.
      apply respects_bind; [|intros _; by apply IH].
      destruct (attempt <? maxAttempts);
        [apply respects_fmt_Print|apply respects_ret].
    + apply respects_bind; [apply respects_fmt_Print|]. intros _.
      apply respects_ret.
Qed.

Lemma respects_section6_RetryPatterns :
  Chapter10.respects Chapter10.section6_RetryPatterns.
Proof.
  apply respects_bind; [apply respects_fmt_Print|]. intros _.
  apply respects_bind.
  - apply respects_retry_loop, respects_simulateUnreliableOperation.
  - intros [|]; apply respects_fmt_Print.
Qed.

(** C1, as the code has it.  The range loops of chapter 6 print the same
    texts in every run, in the iteration order that the runtime picked; the
    retry demonstration of chapter 10 prints the same text in two runs that
    start alike and whose clock readings agree on the test
    [UnixNano()%10 < 7]. *)
Theorem output_follows_run_time_conditions :
  (∀ o o' : list (string * Z),
      Chapter6.iteration_order Chapter6.bookRatings o →
      Chapter6.iteration_order Chapter6.bookRatings o' →
      Chapter6.all_books o ≡ₚ Chapter6.all_books o' ∧
      Chapter6.book_titles o ≡ₚ Chapter6.book_titles o' ∧
      Chapter6.just_ratings o ≡ₚ Chapter6.just_ratings o') ∧
  (∀ w1 w2 : Chapter10.world,
      Chapter10.alike w1 w2 →
      Chapter10.stdout (Chapter10.section6_RetryPatterns w1).2 =
      Chapter10.stdout (Chapter10.section6_RetryPatterns w2).2).
Proof.
  split.
  - intros o o' Ho Ho'. unfold Chapter6.iteration_order in *.
    assert (Hperm : o ≡ₚ o') by (by rewrite Ho, Ho').
    unfold Chapter6.all_books, Chapter6.book_titles, Chapter6.just_ratings.
    by rewrite Hperm.
  - intros w1 w2 H.
    by destruct (respects_section6_RetryPatterns w1 w2 H) as [_ (_ & _ & ? & _)].
Qed.

Lemma output_follows_run_time_conditions_witness :
  (Chapter6.all_books (map_to_list Chapter6.bookRatings) ≡ₚ
     Chapter6.all_books (reverse (map_to_list Chapter6.bookRatings))) ∧
  Chapter10.stdout (Chapter10.section6_RetryPatterns (Chapter10.frozen 0)).2 =
  Chapter10.stdout (Chapter10.section6_RetryPatterns (Chapter10.frozen 10)).2.
Proof.
  split.
  - refine (proj1 (proj1 output_follows_run_time_conditions
                     (map_to_list Chapter6.bookRatings)
                     (reverse (map_to_list Chapter6.bookRatings)) _ _)).
    + unfold Chapter6.iteration_order. reflexivity.
    + unfold Chapter6.iteration_order. apply reverse_Permutation.
  - refine (proj2 output_follows_run_time_conditions
              (Chapter10.frozen 0) (Chapter10.frozen 10) _).
    unfold Chapter10.alike. simpl. split_and!; reflexivity.
Defined.

(** C1, as the claim states it, fails: the retry demonstration prints
    different texts in a run whose clock reads 1700000000000000000 and in a
    run whose clock reads 1700000000000000007, and the range loops print different texts for two iteration
    orders of [bookRatings]. *)
Lemma output_is_not_fixed :
  ¬ Chapter10.retry_output_is_fixed ∧ ¬ Chapter6.range_output_is_fixed.
Proof.
  split.
  - intros H.
    specialize (H (Chapter10.frozen 1700000000000000000)
                  (Chapter10.frozen 1700000000000000007) eq_refl eq_refl eq_refl).
    vm_compute in H. discriminate H.
  - intros H.
    pose (o := map_to_list Chapter6.bookRatings).
    assert (Ho : Chapter6.iteration_order Chapter6.bookRatings o)
      by (unfold Chapter6.iteration_order; reflexivity).
    assert (Hr : Chapter6.iteration_order Chapter6.bookRatings (reverse o))
      by (unfold Chapter6.iteration_order; apply reverse_Permutation).
    specialize (H o o o (reverse o) o o Ho Ho Ho Hr Ho Ho).
    vm_compute in H. discriminate H.
Qed.

End OutputFacts.

(** ** Chapter 4: division and [performOperation] *)

Module Chapter4Facts.
Import Go Chapter4.

Lemma wrap_small (z : Z) : int_min ≤ z ≤ int_max → wrap z = z.
Proof.
  unfold int_min, int_max, wrap. intros H. rewrite Z.mod_small; lia.
Qed.

Lemma quot_in_range (a b : Z) :
  int_min ≤ a ≤ int_max → b ≠ 0 → ¬ (a = int_min ∧ b = -1) →
  int_min ≤ Z.quot a b ≤ int_max.
Proof.
  unfold int_min, int_max. intros Ha Hb Hnot.
  pose proof (Z.quot_rem' a b) as Hqr.
  pose proof (Z.rem_bound_abs a b Hb) as Hrem.
  assert (Habs : Z.abs (Z.quot a b) * Z.abs b ≤ Z.abs a).
  { rewrite <- Z.abs_mul. destruct (Z.le_gt_cases 0 a) as [Hpos|Hneg].
    - pose proof (Z.rem_nonneg a b Hb Hpos).
      pose proof (Z.quot_pos a b) as _. 
      assert (0 ≤ Z.quot a b * b).
      { destruct (Z.le_gt_cases 0 b).
        - apply Z.mul_nonneg_nonneg; [apply Z.quot_pos; lia|lia].
        - rewrite <- Z.mul_opp_opp. apply Z.mul_nonneg_nonneg; [|lia].
          rewrite <- Z.quot_opp_r by lia. apply Z.quot_pos; lia. }
      lia.
    - pose proof (Z.rem_nonpos a b Hb ltac:(lia)).
      assert (Z.quot a b * b ≤ 0).
      { destruct (Z.le_gt_cases 0 b).
        - rewrite <- (Z.opp_involutive (Z.quot a b)), <- Z.quot_opp_l by lia.
          rewrite Z.mul_opp_l.
          assert (0 ≤ Z.quot (- a) b * b); [|lia].
          apply Z.mul_nonneg_nonneg; [apply Z.quot_pos; lia|lia].
        - rewrite <- Z.quot_opp_opp by lia.
          assert (0 ≤ Z.quot (- a) (- b) * - b); [|lia].
          apply Z.mul_nonneg_nonneg; [apply Z.quot_pos; lia|lia]. }
      lia. }
  destruct (Z.eq_dec (Z.abs b) 1) as [Hone|Hbig].
  - assert (b = 1 ∨ b = -1) as [->| ->] by lia.
    + rewrite Z.quot_1_r. lia.
    + assert (a ≠ - 2 ^ 63) by (intros ->; by apply Hnot).
      rewrite <- (Z.opp_involutive a) at 1 2.
      change (-1) with (- (1)). rewrite Z.quot_opp_opp, Z.quot_1_r by lia. lia.
  - nia.
Qed.

(** X1. [divideNumbers] panics for a zero divisor.  For ints [a] and a
    nonzero int [b] it returns a quotient and a remainder in the range of
    [int] with [a = quotient*b + remainder], the remainder being smaller
    than [b] in absolute value and of the sign of [a]; only for the most
    negative int divided by -1 does the quotient wrap around, to [a]
    itself. *)
Theorem divideNumbers_quotient_remainder (a b : Z) :
  int_min ≤ a ≤ int_max → int_min ≤ b ≤ int_max →
  (b = 0 → divideNumbers a b = None) ∧
  (b ≠ 0 →
   ∃ q r, divideNumbers a b = Some (q, r) ∧
          int_min ≤ q ≤ int_max ∧ Z.abs r < Z.abs b ∧
          (0 ≤ a → 0 ≤ r) ∧ (a ≤ 0 → r ≤ 0) ∧
          (¬ (a = int_min ∧ b = -1) → a = q * b + r) ∧
          (a = int_min ∧ b = -1 → q = a ∧ r = 0)).
Proof.
  intros Ha Hb. split.
  - intros ->. reflexivity.
  - intros Hnz. unfold divideNumbers.
    destruct (Z.eqb_spec b 0) as [?|_]; [done|].
    pose proof (Z.rem_bound_abs a b Hnz) as Hrem.
    assert (Hr : int_rem a b = Z.rem a b).
    { apply wrap_small. unfold int_min, int_max in *. lia. }
    exists (int_quo a b), (int_rem a b). rewrite Hr.
    destruct (decide (a = int_min ∧ b = -1)) as [[-> ->]|Hnot].
    + assert (Hq : int_quo int_min (-1) = int_min) by (by vm_compute).
      assert (Hr0 : Z.rem int_min (-1) = 0) by (by vm_compute).
      rewrite Hq, Hr0. unfold int_min, int_max.
      split_and!; try done; try lia.
    + assert (Hq : int_quo a b = Z.quot a b)
        by (apply wrap_small; by apply quot_in_range).
      rewrite Hq. pose proof (quot_in_range a b Ha Hnz Hnot).
      split_and!; try done; try lia.
      * intros ?. by apply Z.rem_nonneg.
      * intros ?. by apply Z.rem_nonpos.
      * intros _. rewrite (Z.mul_comm _ b). apply Z.quot_rem'.
Qed.

Lemma divideNumbers_quotient_remainder_witness :
  ∃ q r, divideNumbers (-17) 5 = Some (q, r) ∧ -17 = q * 5 + r ∧ r ≤ 0.
Proof.
  destruct (divideNumbers_quotient_remainder (-17) 5) as [_ H];
    [by vm_compute|by vm_compute|].
  destruct H as (q & r & Hrun & _ & _ & _ & Hneg & Hsum & _); [lia|].
  exists q, r. split; [exact Hrun|]. split; [apply Hsum|apply Hneg]; [|lia].
  intros [? _]. discriminate.
Defined.

(** X2. [performOperation] reports success exactly for the operations
    "add", "subtract" and "multiply", and for "divide" by a nonzero [b]; a
    failure comes with result 0; a division by zero is a failure, not a
    panic; and a successful "divide" returns the quotient of
    [divideNumbers]. *)
Theorem performOperation_success (operation : string) (a b : Z) :
  ((performOperation operation a b).1 = true ↔
   operation = "add" ∨ operation = "subtract" ∨ operation = "multiply" ∨
   (operation = "divide" ∧ b ≠ 0)) ∧
  ((performOperation operation a b).1 = false →
   (performOperation operation a b).2 = 0) ∧
  performOperation "divide" a 0 = (false, 0) ∧
  (∀ q r, divideNumbers a b = Some (q, r) →
          performOperation "divide" a b = (true, q)).
Proof.
  unfold performOperation. split_and!.
  - destruct (String.eqb_spec operation "add") as [->|?]; [by split; auto|].
    destruct (String.eqb_spec operation "subtract") as [->|?]; [by split; auto|].
    destruct (String.eqb_spec operation "multiply") as [->|?]; [by split; auto 6|].
    destruct (String.eqb_spec operation "divide") as [->|?].
    + destruct (Z.eqb_spec b 0) as [->|?]; simpl.
      * split; [done|]. intros [?|[?|[?|[_ ?]]]]; done.
      * split; auto 6.
    + simpl. split; [done|]. intros [?|[?|[?|[? _]]]]; done.
  - repeat match goal with |- context [if ?c then _ else _] => destruct c end;
      simpl; done.
  - reflexivity.
  - intros q r. unfold divideNumbers. simpl.
    destruct (b =? 0); simpl; [done|]. by intros [= <- _].
Qed.

End Chapter4Facts.

(** ** Chapter 6: the map of students *)

Module StudentFacts.
Import Go Chapter6Students.

Lemma order_NoDup (m : students) (order : list (string * student)) :
  iteration_order m order → NoDup order.*1.
Proof. intros H. rewrite H. apply NoDup_fst_map_to_list. Qed.

Lemma order_elem_of (m : students) (order : list (string * student)) name info :
  iteration_order m order → (name, info) ∈ order ↔ m !! name = Some info.
Proof. intros H. rewrite H. apply elem_of_map_to_list. Qed.

(** X3. [addStudent] panics on a nil map.  On an allocated map it stores a
    record of the four fields under [name], which [getStudentDetails] then
    finds, and leaves what [getStudentDetails] returns for every other name
    as it was; [getStudentDetails] reports success exactly for the names in
    the map. *)
Theorem addStudent_then_getStudentDetails (m : students) (name : string)
    (age : Z) (grade city : string) (active : bool) :
  addStudent None name age grade city active = None ∧
  (∃ m' info,
     addStudent (Some m) name age grade city active = Some m' ∧
     getStudentDetails m' name = (true, info) ∧
     info !! "age" = Some (AnyInt age) ∧
     info !! "grade" = Some (AnyString grade) ∧
     info !! "city" = Some (AnyString city) ∧
     info !! "active" = Some (AnyBool active) ∧
     (∀ other, other ≠ name →
        getStudentDetails m' other = getStudentDetails m other)) ∧
  (∀ other, (getStudentDetails m other).1 = true ↔ is_Some (m !! other)).
Proof.
  split; [done|]. split.
  - set (info := ({["age" := AnyInt age; "grade" := AnyString grade;
                     "city" := AnyString city; "active" := AnyBool active]}
                   : student)).
    exists (<[name := info]> m), info. split; [reflexivity|].
    unfold getStudentDetails. rewrite lookup_insert_eq.
    split_and!; try done.
    intros other Hne. by rewrite lookup_insert_ne.
  - intros other. unfold getStudentDetails.
    destruct (m !! other); simpl; split; try done; by intros [? [=]].
Qed.

Lemma getActiveStudents_snoc (l : list (string * student)) entry :
  getActiveStudents (l ++ [entry]) =
  if is_active entry.2 then <[entry.1 := entry.2]> (getActiveStudents l)
  else getActiveStudents l.
Proof. unfold getActiveStudents. by rewrite foldl_snoc. Qed.

Lemma getActiveStudents_lookup (l : list (string * student)) :
  NoDup l.*1 →
  ∀ name info,
    getActiveStudents l !! name = Some info ↔
    (name, info) ∈ l ∧ is_active info = true.
Proof.
  induction l as [|[k v] l IH] using rev_ind; intros Hnd name info.
  - unfold getActiveStudents. simpl. rewrite lookup_empty.
    split; [done|]. intros [H _]. by apply not_elem_of_nil in H.
  - rewrite fmap_app in Hnd. apply NoDup_app in Hnd as (Hl & Hfresh & _).
    specialize (IH Hl).
    assert (Hk : ∀ info', (k, info') ∉ l).
    { intros info' Hin. apply (Hfresh k).
      - apply list_elem_of_fmap. by exists (k, info').
      - simpl. apply list_elem_of_here. }
    rewrite getActiveStudents_snoc, elem_of_app, list_elem_of_singleton. simpl.
    destruct (is_active v) eqn:Hv.
    + destruct (decide (k = name)) as [->|Hne].
      * rewrite lookup_insert_eq. split.
        -- intros [= ->]. split; [by right|done].
        -- intros [[Hin|[= ->]] _]; [by apply Hk in Hin|done].
      * rewrite lookup_insert_ne by done. rewrite IH. split.
        -- intros [? ?]. split; [by left|done].
        -- intros [[?|[= ? ?]] ?]; [done|by subst].
    + rewrite IH. split.
      * intros [? ?]. split; [by left|done].
      * intros [[?|[= -> ->]] ?]; [done|congruence].
Qed.

(** X4. Whatever iteration order the runtime picks, [getActiveStudents]
    returns the map that holds exactly the students whose "active" entry is
    the bool [true], each with the record it has in [students]. *)
Theorem getActiveStudents_filter (m : students) (order : list (string * student)) :
  iteration_order m order →
  (∀ name info,
     getActiveStudents order !! name = Some info ↔
     m !! name = Some info ∧ is_active info = true) ∧
  (∀ order', iteration_order m order' →
     getActiveStudents order' = getActiveStudents order).
Proof.
  intros Horder.
  assert (Hspec : ∀ o, iteration_order m o → ∀ name info,
            getActiveStudents o !! name = Some info ↔
            m !! name = Some info ∧ is_active info = true).
  { intros o Ho name info.
    rewrite (getActiveStudents_lookup o (order_NoDup m o Ho)).
    by rewrite (order_elem_of m o name info Ho). }
  split; [by apply Hspec|].
  intros order' Horder'. apply map_eq. intros name.
  apply option_eq. intros info. by rewrite !Hspec.
Qed.

Lemma getActiveStudents_filter_witness :
  getActiveStudents (reverse (map_to_list sample)) =
  getActiveStudents (map_to_list sample).
Proof.
  refine (proj2 (getActiveStudents_filter sample (map_to_list sample) _) _ _).
  - unfold iteration_order. reflexivity.
  - unfold iteration_order. apply reverse_Permutation.
Defined.

Lemma findStudentsByGrade_filter (grade : string) (l : list (string * student)) :
  findStudentsByGrade l grade = (filter (λ entry, has_grade grade entry.2 = true) l).*1.
Proof.
  unfold findStudentsByGrade.
  induction l as [|entry l IH] using rev_ind; [done|].
  rewrite foldl_snoc, IH, filter_app, fmap_app.
  rewrite filter_cons, filter_nil.
  destruct (has_grade grade entry.2) eqn:E.
  - rewrite decide_True by done. done.
  - rewrite decide_False by done. simpl. by rewrite app_nil_r.
Qed.

(** X5. In whatever iteration order, [findStudentsByGrade] returns, without
    repetition, exactly the names of the students whose "grade" entry is the
    string [grade]; two runs return the same names, in possibly different
    orders. *)
Theorem findStudentsByGrade_names (m : students) (grade : string)
    (order : list (string * student)) :
  iteration_order m order →
  NoDup (findStudentsByGrade order grade) ∧
  (∀ name, name ∈ findStudentsByGrade order grade ↔
           ∃ info, m !! name = Some info ∧ has_grade grade info = true) ∧
  (∀ order', iteration_order m order' →
     findStudentsByGrade order' grade ≡ₚ findStudentsByGrade order grade).
Proof.
  intros Horder. rewrite findStudentsByGrade_filter. split_and!.
  - eapply sublist_NoDup; [by apply (order_NoDup m order)|].
    apply fmap_sublist, sublist_filter.
  - intros name. rewrite list_elem_of_fmap. split.
    + intros ([k info] & -> & Hin). apply list_elem_of_filter in Hin as [Hg Hin].
      exists info. split; [by apply (order_elem_of m order)|done].
    + intros (info & Hm & Hg). exists (name, info). split; [done|].
      apply list_elem_of_filter. split; [done|by apply (order_elem_of m order)].
  - intros order' Horder'. rewrite findStudentsByGrade_filter.
    unfold iteration_order in *. by rewrite Horder, Horder'.
Qed.

Lemma findStudentsByGrade_names_witness :
  findStudentsByGrade (reverse (map_to_list sample)) "A" ≡ₚ
  findStudentsByGrade (map_to_list sample) "A".
Proof.
  refine (proj2 (proj2 (findStudentsByGrade_names sample "A" (map_to_list sample) _)) _ _).
  - unfold iteration_order. reflexivity.
  - unfold iteration_order. apply reverse_Permutation.
Defined.

Lemma int_add_1_small (x : Z) : 0 ≤ x < int_max → int_add x 1 = x + 1.
Proof.
  unfold int_add, wrap, int_max. intros H. rewrite Z.mod_small; lia.
Qed.

Lemma countStudentsByCity_foldl (city : string) (l : list (string * student)) :
  ∀ acc : gmap string Z,
    (∀ c n, acc !! c = Some n → 0 < n) →
    (∀ c, default 0 (acc !! c) + Z.of_nat (length l) ≤ int_max) →
    foldl (λ cityCounts entry,
             match entry.2 !! "city" with
             | Some (AnyString city) =>
                 <[city := int_add (default 0 (cityCounts !! city)) 1]> cityCounts
             | _ => cityCounts
             end) acc l !! city =
    match length (filter (λ entry, lives_in city entry.2 = true) l) with
    | O => acc !! city
    | S k => Some (default 0 (acc !! city) + Z.of_nat (S k))
    end.
Proof.
  induction l as [|[name info] l IH]; intros acc Hpos Hmax; [done|].
  assert (Hnn : ∀ c, 0 ≤ default 0 (acc !! c)).
  { intros c. destruct (acc !! c) as [n|] eqn:E; simpl; [|done].
    apply Hpos in E. lia. }
  assert (Hlives : lives_in city info = true ↔
                   info !! "city" = Some (AnyString city))
    by apply bool_decide_eq_true.
  cbn [foldl]. rewrite filter_cons. cbn [snd].
  destruct (info !! "city") as [[n|c0|b]|] eqn:Hcity.
  - rewrite decide_False by (rewrite Hlives; congruence).
    apply IH; [done|]. intros c. specialize (Hmax c). simpl in Hmax. lia.
  - assert (Hinc : int_add (default 0 (acc !! c0)) 1 = default 0 (acc !! c0) + 1).
    { apply int_add_1_small. specialize (Hmax c0). specialize (Hnn c0).
      simpl in Hmax. lia. }
    rewrite Hinc. rewrite IH.
    + destruct (decide (c0 = city)) as [->|Hne].
      * rewrite decide_True by (by rewrite Hlives).
        rewrite lookup_insert_eq. simpl.
        destruct (length (filter _ l)); f_equal; lia.
      * rewrite decide_False by (rewrite Hlives; congruence).
        by rewrite lookup_insert_ne.
    + intros c n. destruct (decide (c0 = c)) as [->|Hne].
      * rewrite lookup_insert_eq. intros [= <-]. specialize (Hnn c). lia.
      * rewrite lookup_insert_ne by done. apply Hpos.
    + intros c. destruct (decide (c0 = c)) as [->|Hne].
      * rewrite lookup_insert_eq. simpl. specialize (Hmax c). simpl in Hmax. lia.
      * rewrite lookup_insert_ne by done. specialize (Hmax c). simpl in Hmax. lia.
  - rewrite decide_False by (rewrite Hlives; congruence).
    apply IH; [done|]. intros c. specialize (Hmax c). simpl in Hmax. lia.
  - rewrite decide_False by (rewrite Hlives; congruence).
    apply IH; [done|]. intros c. specialize (Hmax c). simpl in Hmax. lia.
Qed.

(** X6. For a map of fewer than 2^63 students, and in whatever iteration
    order, [countStudentsByCity] maps each city to the number of students
    whose "city" entry is that string, and holds no entry for a city where
    nobody lives. *)
Theorem countStudentsByCity_counts (m : students) (order : list (string * student))
    (city : string) :
  iteration_order m order → Z.of_nat (size m) ≤ int_max →
  countStudentsByCity order !! city =
  match length (filter (λ entry, lives_in city entry.2 = true) (map_to_list m)) with
  | O => None
  | S k => Some (Z.of_nat (S k))
  end.
Proof.
  intros Horder Hsize. unfold countStudentsByCity.
  rewrite countStudentsByCity_foldl.
  - unfold iteration_order in Horder. rewrite Horder, lookup_empty. simpl.
    by destruct (length _).
  - intros c n. by rewrite lookup_empty.
  - intros c. rewrite lookup_empty. simpl.
    unfold iteration_order in Horder. rewrite Horder, length_map_to_list. lia.
Qed.

Lemma countStudentsByCity_counts_witness :
  countStudentsByCity (reverse (map_to_list sample)) !! "Paris" = Some 1 ∧
  countStudentsByCity (reverse (map_to_list sample)) !! "Rome" = None.
Proof.
  assert (Horder : iteration_order sample (reverse (map_to_list sample)))
    by (unfold iteration_order; apply reverse_Permutation).
  assert (Hsize : Z.of_nat (size sample) ≤ int_max) by (by vm_compute).
  split.
  - rewrite (countStudentsByCity_counts sample _ "Paris" Horder Hsize).
    by vm_compute.
  - rewrite (countStudentsByCity_counts sample _ "Rome" Horder Hsize).
    by vm_compute.
Defined.

End StudentFacts.

(** ** [strings.Contains] *)

Module StringFacts.
Import Chapter10.

Lemma prefix_append (s1 s2 : string) :
  String.prefix s1 s2 = true ↔ ∃ post, s2 = s1 +:+ post.
Proof.
  revert s2. induction s1 as [|a s1 IH]; intros s2.
  - split; [intros _; by exists s2|]. intros _. by destruct s2.
  - destruct s2 as [|b s2].
    + split; [done|]. by intros [post [=]].
    + cbn [String.prefix]. destruct (Ascii.ascii_dec a b) as [->|Hne].
      * rewrite IH. split.
        -- intros [post ->]. by exists post.
        -- intros [post [= ->]]. by exists post.
      * split; [done|]. intros [post [= ? _]]. done.
Qed.

Lemma index_0_is_Some (s1 s2 : string) :
  is_Some (String.index 0 s1 s2) ↔ ∃ pre post, s2 = pre +:+ s1 +:+ post.
Proof.
  induction s2 as [|b s2 IH].
  - destruct s1 as [|a s1]; simpl.
    + split; [intros _; by exists "", ""|by eexists].
    + split; [by intros [? [=]]|]. intros (pre & post & H).
      destruct pre; discriminate H.
  - cbn [String.index]. destruct (String.prefix s1 (String b s2)) eqn:Hp.
    + split; [|by eexists]. intros _.
      apply prefix_append in Hp as [post Hp]. by exists "", post.
    + split.
      * intros Hsome. destruct (String.index 0 s1 s2) as [n|] eqn:E;
          [|by destruct Hsome as [? [=]]].
        destruct (proj1 IH ltac:(by eexists)) as (pre & post & ->).
        by exists (String b pre), post.
      * intros (pre & post & H). destruct pre as [|c pre].
        -- assert (String.prefix s1 (String b s2) = true) as Hp'
             by (apply prefix_append; by exists post).
           congruence.
        -- injection H as -> ->.
           destruct (proj2 IH) as [n ->]; [by exists pre, post|by eexists].
Qed.

(** [strings.Contains(s, substr)] is true exactly when [substr] occurs in
    [s]: [s] is some text, then [substr], then some text. *)
Lemma strings_Contains_occurs (s substr : string) :
  strings_Contains s substr = true ↔ ∃ pre post, s = pre +:+ substr +:+ post.
Proof.
  unfold strings_Contains. rewrite bool_decide_eq_true. apply index_0_is_Some.
Qed.

End StringFacts.

(** ** Chapter 7: [Validate] and [AddMember] *)

Module Chapter7PatternFacts.
Import Go Chapter7Patterns.

(** X7. [User.Validate] returns nil exactly for a user with a nonempty name,
    an age of at least 18 and an email address in which "@" occurs.
    Otherwise it reports the first check that fails, in the order name, age,
    email: an empty name whatever the other fields are, and the age of a
    named minor. *)
Theorem Validate_accepts (u : User) :
  (Validate u = None ↔
   Name u ≠ "" ∧ 18 ≤ Age u ∧ ∃ pre post, Email u = pre +:+ "@" +:+ post) ∧
  (Name u = "" → Validate u = Some "name is required") ∧
  (Name u ≠ "" → Age u < 18 →
   Validate u = Some ("age must be at least 18, got " +:+ fmt_int (Age u))) ∧
  (Name u ≠ "" → 18 ≤ Age u → Validate u ≠ None →
   Validate u = Some ("invalid email format: " +:+ Email u)).
Proof.
  unfold Validate. rewrite <- StringFacts.strings_Contains_occurs.
  destruct (String.eqb_spec (Name u) "") as [Hname|Hname];
    [|destruct (Z.ltb_spec (Age u) 18) as [Hage|Hage];
      [|destruct (Chapter10.strings_Contains (Email u) "@"); simpl]];
    split_and!; try done; try lia;
    try (intros (? & ? & ?); done || lia).
  all: split; [done|intros (? & ? & ?); done || lia].
Qed.

Lemma AddMembers_snoc (t : Team) (persons : list Chapter7.Person)
    (person : Chapter7.Person) :
  AddMembers t (persons ++ [person]) =
  (t' ← AddMembers t persons; AddMember t' person).
Proof. unfold AddMembers. by rewrite foldl_snoc. Qed.

(** X8. [AddMember] panics on a [Team] whose [Info] map is nil.  On a
    [Team] with an allocated [Info] map, adding members one after the other
    appends them to [Members] in that order, keeps the earlier members and
    every other key of [Info], and, once a member was added, leaves under
    "count" the decimal text of [len(t.Members)]. *)
Theorem AddMembers_counts (t : Team) (persons : list Chapter7.Person) :
  (Info t = None → ∀ person, AddMember t person = None) ∧
  (∀ info, Info t = Some info →
   ∃ t' info',
     AddMembers t persons = Some t' ∧
     Members t' = Members t ++ persons ∧
     Info t' = Some info' ∧
     (∀ key, key ≠ "count" → info' !! key = info !! key) ∧
     (persons ≠ [] →
      info' !! "count" = Some (fmt_int (Z.of_nat (length (Members t')))))).
Proof.
  split; [intros Hnil person; unfold AddMember; by rewrite Hnil|].
  intros info Hinfo. induction persons as [|person persons IH] using rev_ind.
  - exists t, info. split_and!; try done. by rewrite app_nil_r.
  - destruct IH as (t1 & info1 & Hrun & Hmem & Hinfo1 & Hkeys & _).
    rewrite AddMembers_snoc, Hrun. simpl. unfold AddMember. rewrite Hinfo1. simpl.
    eexists _, _. split_and!; [done| |done| |].
    + simpl. by rewrite Hmem, app_assoc.
    + intros key Hkey. rewrite lookup_insert_ne by done. by apply Hkeys.
    + intros _. simpl. by rewrite lookup_insert_eq.
Qed.

Lemma AddMembers_counts_witness :
  ∃ t' info',
    AddMembers (mkTeam [] (Some ∅))
      [Chapter7.mkPerson "Diana" 27 "diana@example.com" true] = Some t' ∧
    Info t' = Some info' ∧ info' !! "count" = Some "1".
Proof.
  destruct (proj2 (AddMembers_counts (mkTeam [] (Some ∅))
              [Chapter7.mkPerson "Diana" 27 "diana@example.com" true]) ∅ eq_refl)
    as (t' & info' & Hrun & Hmem & Hinfo & _ & Hcount).
  exists t', info'. split; [exact Hrun|]. split; [exact Hinfo|].
  rewrite Hcount by done. rewrite Hmem. reflexivity.
Defined.

End Chapter7PatternFacts.

(** ** Chapter 8: the databases *)

Module Chapter8DatabaseFacts.
Import Chapter8Database.

Lemma after_app (db : Database) (h1 h2 : list DatabaseOp) :
  after db (h1 ++ h2) = after (after db h1) h2.
Proof. unfold after. by rewrite foldl_app. Qed.

Lemma after_queries (db : Database) (queries : list string) :
  after db (OpQuery <$> queries) = db.
Proof. induction queries as [|q queries IH]; [done|]. simpl. exact IH. Qed.

Lemma GetType_call (db : Database) (op : DatabaseOp) :
  GetType (call db op) = GetType db.
Proof. by destruct db, op. Qed.

Lemma GetType_after (db : Database) (history : list DatabaseOp) :
  GetType (after db history) = GetType db.
Proof.
  induction history as [|op history IH] using rev_ind; [done|].
  by rewrite after_app, <- IH; simpl; rewrite GetType_call.
Qed.

(** X9. Both databases can be reconnected.  [Connect] never fails.  Whatever
    was called before, a [Query] after a [Connect] that only queries follow
    returns the text "<type> result for: <query>" and no error; a [Query]
    after a [Close] that only queries follow returns the empty string and an
    error. *)
Theorem Query_follows_last_Connect_or_Close (db : Database)
    (history : list DatabaseOp) (queries : list string) (query : string) :
  (Connect db).2 = None ∧
  Query (after db (history ++ [OpConnect] ++ (OpQuery <$> queries))) query =
    (GetType db +:+ " result for: " +:+ query, None) ∧
  (Query (after db (history ++ [OpClose] ++ (OpQuery <$> queries))) query).1 = "" ∧
  (Query (after db (history ++ [OpClose] ++ (OpQuery <$> queries))) query).2 ≠ None.
Proof.
  rewrite !after_app, !after_queries.
  pose proof (GetType_after db history) as Hty.
  destruct (after db history) as [m|p], db as [m0|p0]; done.
Qed.

End Chapter8DatabaseFacts.

(** ** Chapter 8: more on [File] *)

Module Chapter8FileMoreFacts.
Import Chapter8File.

(** X10. On an open [File], what [Write] stores is what [Read] gives back:
    after [Write(p)], a [Read] returns [n = len(p)] and no error, and leaves
    in the buffer the first [len(buf)] bytes of [p] followed by the bytes
    of the buffer beyond [len(p)]; so a buffer at least as long as [p]
    starts with [p]. *)
Theorem Write_then_Read (f : File) (p buf : list Byte.byte) :
  IsOpen f = true →
  ∃ f' buf',
    Write f p = (f', Z.of_nat (length p), None) ∧
    Read f' buf = (buf', Z.of_nat (length p), None) ∧
    buf' = take (length buf) p ++ drop (length p) buf ∧
    ((length p ≤ length buf)%nat → take (length p) buf' = p).
Proof.
  intros Hopen.
  assert (Hlen : String.length (String.string_of_list_byte p) = length p).
  { rewrite <- (String.list_byte_of_string_of_list_byte p) at 2.
    symmetry. apply Chapter8FileFacts.length_list_byte_of_string. }
  assert (Hbuf : take (length buf `min` length p) p ++ drop (length buf `min` length p) buf =
                 take (length buf) p ++ drop (length p) buf).
  { destruct (Nat.le_ge_cases (length buf) (length p)) as [H|H].
    - rewrite Nat.min_l by done. by rewrite (drop_ge buf (length p)), drop_ge.
    - rewrite Nat.min_r by done. by rewrite (take_ge p (length buf)), take_ge. }
  exists (mkFile (Name f) (String.string_of_list_byte p) (IsOpen f)),
         (take (length buf) p ++ drop (length p) buf).
  split_and!.
  - unfold Write. by rewrite Hopen.
  - unfold Read, len, copy. simpl. rewrite Hopen. simpl.
    by rewrite String.list_byte_of_string_of_list_byte, Hlen, Hbuf.
  - done.
  - intros Hfit. rewrite (take_ge p (length buf)) by done.
    by rewrite take_app_length.
Qed.

Lemma Write_then_Read_witness :
  ∃ f' buf',
    Write document [Byte.x4e; Byte.x65; Byte.x77] = (f', 3, None) ∧
    Read f' (replicate 5 Byte.x00) = (buf', 3, None) ∧
    buf' = [Byte.x4e; Byte.x65; Byte.x77; Byte.x00; Byte.x00].
Proof.
  destruct (Write_then_Read document [Byte.x4e; Byte.x65; Byte.x77]
              (replicate 5 Byte.x00) eq_refl) as (f' & buf' & Hw & Hr & Hbuf & _).
  exists f', buf'. split; [exact Hw|]. split; [exact Hr|exact Hbuf].
Defined.

Lemma call_closed (f : File) (op : FileOp) :
  IsOpen f = false → (call f op).1 = f.
Proof. destruct f as [name content [|]], op as [p|p|]; by cbv. Qed.

(** X11. A closed [File] stays as it is: after any calls of [Read], [Write]
    and [Close] it has the same name and contents and is still closed,
    every such call returns an error, [Read] and [Write] return [n = 0], and
    [Read] leaves its buffer untouched. *)
Theorem closed_File_is_frozen (f : File) (history : list FileOp)
    (p : list Byte.byte) :
  IsOpen f = false →
  after f history = f ∧
  Read (after f history) p = (p, 0, Some "file is not open") ∧
  Write (after f history) p = (f, 0, Some "file is not open") ∧
  Close (after f history) = (f, Some "file is already closed").
Proof.
  intros Hclosed.
  assert (Hafter : after f history = f).
  { induction history as [|op history IH] using rev_ind; [done|].
    rewrite Chapter8FileFacts.after_snoc, IH. by apply call_closed. }
  rewrite Hafter. unfold Read, Write, Close. by rewrite Hclosed.
Qed.

Lemma closed_File_is_frozen_witness :
  after (Close document).1 [OpWrite [Byte.x4e]; OpClose; OpRead []] =
  (Close document).1.
Proof.
  apply (closed_File_is_frozen (Close document).1
           [OpWrite [Byte.x4e]; OpClose; OpRead []] []). reflexivity.
Defined.

End Chapter8FileMoreFacts.

(** ** Chapter 8: more on the sort helpers *)

Module Chapter8SortMoreFacts.
Import Chapter8Sort.

#[local] Instance string_le_trans_inst : Transitive string_le.
Proof. intros x y z. apply Chapter8SortFacts.string_le_trans. Qed.

#[local] Instance string_le_antisym_inst : AntiSymm (=) string_le.
Proof. intros x y. apply Chapter8SortFacts.string_le_antisym. Qed.

Lemma sortInts_result (nums : list Z) :
  ∃ out, sortInts nums = Done out ∧ Sorted Z.le out ∧ nums ≡ₚ out.
Proof.
  destruct (Chapter8SortFacts.bubble_sort_sorts int_gt
              Chapter8SortFacts.int_gt_asym Chapter8SortFacts.int_ngt_trans nums)
    as (out & Hrun & Hsorted & Hperm).
  exists out. split_and!; [done| |done].
  by apply Chapter8SortFacts.Sorted_int_ngt.
Qed.

Lemma sortStrings_result (strs : list string) :
  ∃ out, sortStrings strs = Done out ∧ Sorted string_le out ∧ strs ≡ₚ out.
Proof.
  apply (Chapter8SortFacts.bubble_sort_sorts string_gt
           Chapter8SortFacts.string_gt_asym Chapter8SortFacts.string_le_trans).
Qed.

(** X12. The sort helpers leave a slice that is already in order as it is,
    so sorting twice is sorting once; and they keep the length of the
    slice. *)
Theorem sort_helpers_idempotent :
  (∀ nums : list Z, Sorted Z.le nums → sortInts nums = Done nums) ∧
  (∀ nums out : list Z,
     sortInts nums = Done out → sortInts out = Done out ∧ length out = length nums) ∧
  (∀ strs : list string, Sorted string_le strs → sortStrings strs = Done strs) ∧
  (∀ strs out : list string,
     sortStrings strs = Done out →
     sortStrings out = Done out ∧ length out = length strs).
Proof.
  assert (Hints : ∀ nums : list Z, Sorted Z.le nums → sortInts nums = Done nums).
  { intros nums Hsorted.
    destruct (sortInts_result nums) as (out & -> & Hout & Hperm).
    f_equal. by apply (Sorted_unique Z.le). }
  assert (Hstrs : ∀ strs : list string,
            Sorted string_le strs → sortStrings strs = Done strs).
  { intros strs Hsorted.
    destruct (sortStrings_result strs) as (out & -> & Hout & Hperm).
    f_equal. by apply (Sorted_unique string_le). }
  split_and!; [done| |done|].
  - intros nums out Hrun.
    destruct (sortInts_result nums) as (out' & Hrun' & Hout & Hperm).
    rewrite Hrun in Hrun'. injection Hrun' as <-.
    split; [by apply Hints|]. by rewrite Hperm.
  - intros strs out Hrun.
    destruct (sortStrings_result strs) as (out' & Hrun' & Hout & Hperm).
    rewrite Hrun in Hrun'. injection Hrun' as <-.
    split; [by apply Hstrs|]. by rewrite Hperm.
Qed.

Lemma sort_helpers_idempotent_witness :
  sortInts [1; 1; 2; 3] = Done [1; 1; 2; 3].
Proof.
  apply (proj1 sort_helpers_idempotent [1; 1; 2; 3]).
  repeat constructor; lia.
Defined.

End Chapter8SortMoreFacts.

(** ** Chapter 9: pointer receivers on [Person] *)

Module Chapter9PersonFacts.
Import Go Chapter9 Chapter9Patterns.

(** X13. Through a pointer to an allocated [Person], [HaveBirthday] and
    [UpdateEmail] update the [Person] itself and nothing else: called one
    after the other, in either order, they leave the cell with its age
    incremented and the new email address and every other cell, and the
    configuration, as they were.  Called on a nil pointer both panic. *)
Theorem pointer_receivers_update_in_place (s : state) (a : addr) (p : Person)
    (newEmail : string) :
  persons s !! a = Some p →
  HaveBirthday None s = None ∧ UpdateEmail None newEmail s = None ∧
  ∃ s1 s2,
    (s' ← HaveBirthday (Some a) s; UpdateEmail (Some a) newEmail s') = Some s1 ∧
    (s' ← UpdateEmail (Some a) newEmail s; HaveBirthday (Some a) s') = Some s2 ∧
    persons s1 = persons s2 ∧
    persons s1 !! a =
      Some (mkPerson (Name p) (int_add (Age p) 1) newEmail (IsActive p)
              (Hobbies p) (Metadata p)) ∧
    (∀ b, b ≠ a → persons s1 !! b = persons s !! b) ∧
    configs s1 = configs s ∧ configInstance s1 = configInstance s.
Proof.
  intros Hp. split; [done|]. split; [done|].
  unfold HaveBirthday, UpdateEmail. simpl. rewrite Hp. simpl.
  rewrite !lookup_insert_eq. simpl.
  eexists _, _. split; [done|]. split; [done|]. simpl.
  split_and!; try done.
  - by rewrite !insert_insert_eq.
  - by rewrite lookup_insert_eq.
  - intros b Hb. by rewrite !lookup_insert_ne.
Qed.

Lemma pointer_receivers_update_in_place_witness :
  ∃ s1,
    (s' ← HaveBirthday (Some 0%nat)
            (mkState {[0%nat := mkPerson "Alice" 25 "" true [] ∅]} ∅ None "");
     UpdateEmail (Some 0%nat) "alice@example.com" s') = Some s1 ∧
    persons s1 !! 0%nat =
      Some (mkPerson "Alice" 26 "alice@example.com" true [] ∅).
Proof.
  destruct (pointer_receivers_update_in_place
              (mkState {[0%nat := mkPerson "Alice" 25 "" true [] ∅]} ∅ None "")
              0%nat (mkPerson "Alice" 25 "" true [] ∅) "alice@example.com")
    as (_ & _ & s1 & s2 & H1 & _ & _ & Hcell & _).
  - apply lookup_singleton_eq.
  - exists s1. split; [exact H1|exact Hcell].
Defined.

End Chapter9PersonFacts.

(** ** Chapter 9: the computer builder *)

Module BuilderFacts.
Import Go Chapter9 Chapter9Patterns.

Lemma call_setter_cell (cb : addr) (h : builders) (c : Computer) (s : setter) :
  h !! cb = Some c →
  call_setter (Some cb) h s = Some (Some cb, <[cb := apply_setter c s]> h).
Proof.
  intros Hc. destruct s; simpl;
    unfold SetCPU, SetRAM, SetStorage, SetGPU; simpl; by rewrite Hc.
Qed.

Lemma chain_setters_snoc (cb : ptr) (h : builders) (cs : list setter) (c : setter) :
  chain_setters cb h (cs ++ [c]) =
  ('(cb', h') ← chain_setters cb h cs; call_setter cb' h' c).
Proof. unfold chain_setters. by rewrite foldl_snoc. Qed.

Lemma chain_setters_cell (cs : list setter) (cb : addr) (h : builders) (c : Computer) :
  h !! cb = Some c →
  chain_setters (Some cb) h cs = Some (Some cb, <[cb := foldl apply_setter c cs]> h).
Proof.
  intros Hc. induction cs as [|s cs IH] using rev_ind.
  - unfold chain_setters. simpl. by rewrite insert_id.
  - rewrite chain_setters_snoc, IH. simpl.
    rewrite (call_setter_cell cb _ (foldl apply_setter c cs)) by apply lookup_insert_eq.
    by rewrite insert_insert_eq, foldl_snoc.
Qed.

(** X14. Builders do not share state.  [NewComputerBuilder] returns a
    pointer to a fresh builder; every setter of a chain returns that
    pointer; after the chain [Build] returns, for each field, the value of
    the last setter called for it, and the zero value if none was; and what
    [Build] returns through any pointer to another builder is unchanged. *)
Theorem builders_are_independent (h : builders) (cs : list setter) :
  ∃ cb h',
    (NewComputerBuilder h).1 = Some cb ∧ h !! cb = None ∧
    chain_setters (Some cb) (NewComputerBuilder h).2 cs = Some (Some cb, h') ∧
    Build (Some cb) h' = Some (foldl apply_setter (mkComputer "" 0 "" "") cs) ∧
    (∀ other, other ≠ cb → Build (Some other) h' = Build (Some other) h).
Proof.
  unfold NewComputerBuilder. simpl. set (cb := fresh (dom h)).
  exists cb, (<[cb := foldl apply_setter (mkComputer "" 0 "" "") cs]> h).
  split; [done|]. split; [apply not_elem_of_dom, is_fresh|]. split.
  - rewrite (chain_setters_cell cs cb _ (mkComputer "" 0 "" ""))
      by apply lookup_insert_eq.
    by rewrite insert_insert_eq.
  - unfold Build. simpl. split; [by rewrite lookup_insert_eq|].
    intros other Hne. by rewrite lookup_insert_ne.
Qed.

End BuilderFacts.

(** ** Chapter 9: deep and shallow copies *)

Module SharingFacts.
Import Go Chapter9Sharing.

Lemma foldl_insert_list_to_map (l : list (string * string)) :
  foldl (λ (m : gmap string string) kv, <[kv.1 := kv.2]> m) ∅ l =
  list_to_map (reverse l).
Proof.
  induction l as [|kv l IH] using rev_ind; [done|].
  by rewrite foldl_snoc, IH, reverse_snoc.
Qed.

Lemma range_copies_map (m : gmap string string) (order : list (string * string)) :
  order ≡ₚ map_to_list m →
  foldl (λ (m : gmap string string) kv, <[kv.1 := kv.2]> m) ∅ order = m.
Proof.
  intros Horder. rewrite foldl_insert_list_to_map.
  transitivity (list_to_map (map_to_list m) : gmap string string);
    [|apply list_to_map_to_list].
  apply list_to_map_proper.
  - rewrite reverse_Permutation, Horder. apply NoDup_fst_map_to_list.
  - by rewrite reverse_Permutation.
Qed.

Lemma make_then_copy (src : list string) :
  take (length (replicate (length src) "") `min` length src) src ++
  drop (length (replicate (length src) "") `min` length src)
       (replicate (length src) "") = src.
Proof.
  rewrite length_replicate, Nat.min_id, take_ge, drop_ge by
    (rewrite ?length_replicate; lia).
  apply app_nil_r.
Qed.

(** X15. [DeepCopy] returns a [Person] with the same fields, hobbies and
    metadata that shares nothing with the original: a write to an element of
    the hobbies or to an entry of the metadata made through the copy is not
    seen through the original, and a write made through the original is not
    seen through the copy.  A write through the struct value itself, as
    through a plain copy of it, lands in the shared backing array. *)
Theorem DeepCopy_shares_nothing (p : Person) (h : heap)
    (order : list (string * string)) :
  allocated p h → order ≡ₚ map_to_list (metadata_of p h) →
  let c := (DeepCopy p order h).1 in
  let h1 := (DeepCopy p order h).2 in
  (Name c, Age c, Email c, IsActive c) = (Name p, Age p, Email p, IsActive p) ∧
  hobbies_of c h1 = hobbies_of p h ∧ metadata_of c h1 = metadata_of p h ∧
  hobbies_of p h1 = hobbies_of p h ∧ metadata_of p h1 = metadata_of p h ∧
  (∀ i v h2, set_hobby c i v h1 = Some h2 →
     hobbies_of p h2 = hobbies_of p h ∧
     hobbies_of c h2 = <[Z.to_nat i := v]> (hobbies_of p h)) ∧
  (∀ k v, ∃ h2, set_metadata c k v h1 = Some h2 ∧
     metadata_of p h2 = metadata_of p h ∧
     metadata_of c h2 = <[k := v]> (metadata_of p h)) ∧
  (∀ i v h2, set_hobby p i v h1 = Some h2 →
     hobbies_of c h2 = hobbies_of p h ∧
     hobbies_of p h2 = <[Z.to_nat i := v]> (hobbies_of p h)) ∧
  (∀ k v h2, set_metadata p k v h1 = Some h2 →
     metadata_of c h2 = metadata_of p h ∧
     metadata_of p h2 = <[k := v]> (metadata_of p h)).
Proof.
  intros [Harr Htab] Horder c h1.
  set (a1 := fresh (dom (arrays h))). set (a2 := fresh (dom (tables h))).
  assert (Ha1 : arrays h !! a1 = None) by apply not_elem_of_dom, is_fresh.
  assert (Ha2 : tables h !! a2 = None) by apply not_elem_of_dom, is_fresh.
  assert (Hpa : ∀ a, Hobbies p = Some a → a ≠ a1).
  { intros a Ha ->. apply Harr in Ha as [? Ha]. congruence. }
  assert (Hpt : ∀ a, Metadata p = Some a → a ≠ a2).
  { intros a Ha ->. apply Htab in Ha as [? Ha]. congruence. }
  assert (Hc : c = mkPerson (Name p) (Age p) (Email p) (IsActive p) (Some a1) (Some a2))
    by done.
  assert (Hh1 : h1 = mkHeap (<[a1 := hobbies_of p h]> (arrays h))
                            (<[a2 := metadata_of p h]> (tables h))).
  { unfold h1, DeepCopy. cbn [snd]. fold a1 a2.
    by rewrite make_then_copy, (range_copies_map (metadata_of p h)). }
  clearbody c h1. subst c h1.
  assert (Hp1 : hobbies_of p (mkHeap (<[a1 := hobbies_of p h]> (arrays h))
                                (<[a2 := metadata_of p h]> (tables h))) =
                hobbies_of p h).
  { unfold hobbies_of at 1 3. simpl. destruct (Hobbies p) as [a|] eqn:E; [|done].
    simpl. by rewrite lookup_insert_ne by (symmetry; by apply Hpa). }
  assert (Hp2 : metadata_of p (mkHeap (<[a1 := hobbies_of p h]> (arrays h))
                                 (<[a2 := metadata_of p h]> (tables h))) =
                metadata_of p h).
  { unfold metadata_of at 1 3. simpl. destruct (Metadata p) as [a|] eqn:E; [|done].
    simpl. by rewrite lookup_insert_ne by (symmetry; by apply Hpt). }
  split; [done|].
  split; [unfold hobbies_of at 1; simpl; by rewrite lookup_insert_eq|].
  split; [unfold metadata_of at 1; simpl; by rewrite lookup_insert_eq|].
  split; [done|]. split; [done|]. split_and!.
  - intros i v h2. unfold set_hobby. simpl. rewrite lookup_insert_eq. simpl.
    destruct ((0 <=? i) && (i <? Z.of_nat (length (hobbies_of p h)))); [|done].
    intros [= <-]. split.
    + rewrite <- Hp1 at 2. unfold hobbies_of. simpl.
      destruct (Hobbies p) as [a|] eqn:E; [|done]. simpl.
      by rewrite !lookup_insert_ne by (symmetry; by apply Hpa).
    + unfold hobbies_of at 1. simpl. by rewrite lookup_insert_eq.
  - intros k v. unfold set_metadata. simpl. rewrite lookup_insert_eq. simpl.
    eexists. split; [done|]. split.
    + rewrite <- Hp2 at 2. unfold metadata_of. simpl.
      destruct (Metadata p) as [a|] eqn:E; [|done]. simpl.
      by rewrite !lookup_insert_ne by (symmetry; by apply Hpt).
    + unfold metadata_of at 1. simpl. by rewrite lookup_insert_eq.
  - intros i v h2. unfold set_hobby. simpl.
    destruct (Hobbies p) as [a|] eqn:E; [|done]. simpl.
    rewrite lookup_insert_ne by (symmetry; by apply Hpa).
    destruct (arrays h !! a) as [elements|] eqn:Ea; [|done]. simpl.
    destruct ((0 <=? i) && (i <? Z.of_nat (length elements))); [|done].
    intros [= <-]. unfold hobbies_of. simpl. rewrite E. simpl.
    rewrite lookup_insert_eq, Ea. simpl.
    by rewrite lookup_insert_ne, lookup_insert_eq by (by apply Hpa).
  - intros k v h2. unfold set_metadata. simpl.
    destruct (Metadata p) as [a|] eqn:E; [|done]. simpl.
    rewrite lookup_insert_ne by (symmetry; by apply Hpt).
    destruct (tables h !! a) as [entries|] eqn:Ea; [|done]. simpl.
    intros [= <-]. unfold metadata_of. simpl. rewrite E. simpl.
    rewrite lookup_insert_eq, Ea. simpl.
    by rewrite lookup_insert_ne, lookup_insert_eq by (by apply Hpt).
Qed.

Lemma DeepCopy_shares_nothing_witness :
  let p := mkPerson "Alice" 25 "" false (Some 0%nat) (Some 0%nat) in
  let h := mkHeap {[0%nat := ["reading"; "swimming"]]}
                  {[0%nat := {["city" := "New York"; "country" := "USA"]}]} in
  let order := map_to_list (metadata_of p h) in
  hobbies_of (DeepCopy p order h).1 (DeepCopy p order h).2 = hobbies_of p h.
Proof.
  intros p h order.
  refine (proj1 (proj2 (DeepCopy_shares_nothing p h order _ _))).
  - split; intros a [= <-]; eexists; apply lookup_singleton_eq.
  - reflexivity.
Defined.

End SharingFacts.

(** ** Chapter 10: validation of users *)

Module UserFacts.
Import Go Chapter10 Chapter10More.

(** X16. [processUser] returns nil exactly for a user with a nonempty name,
    an age of at least 18 and an email address in which "@" occurs; it
    prints "User is valid!" in that case and nothing otherwise, and never
    writes to standard error.  Every error it returns was made by
    [errors.New]: none is a [*ValidationError]. *)
Theorem processUser_accepts (user : User) (w : world) :
  ∃ err w',
    processUser user w = (Ok err, w') ∧
    (err = None ↔
     Name user ≠ "" ∧ 18 ≤ Age user ∧
     ∃ pre post, Email user = pre +:+ "@" +:+ post) ∧
    stdout w' = stdout w +:+
                match err with
                | None => "User is valid!" +:+ newline
                | Some _ => ""
                end ∧
    stderr w' = stderr w ∧
    (∀ e, err = Some e → TypeOf e = T_errorString ∧
                         IsValidationError (Some e) = false).
Proof.
  unfold processUser.
  destruct (String.eqb_spec (Name user) "") as [Hname|Hname];
    [|destruct (Z.ltb_spec (Age user) 18) as [Hage|Hage];
      [|destruct (String.eqb_spec (Email user) "") as [Hemail|Hemail];
        [|destruct (strings_Contains (Email user) "@") eqn:Hat; simpl]]].
  all: eexists _, _; split; [reflexivity|]; simpl.
  all: rewrite <- StringFacts.strings_Contains_occurs.
  all: rewrite ?StreamFacts.append_empty_r.
  all: split_and!; try done; try (by intros e [= <-]).
  all: try (split; [done|intros (? & ? & ?); done || lia]).
  - split; [done|]. intros (_ & _ & Hc). rewrite Hemail in Hc.
    vm_compute in Hc. discriminate Hc.
  - split; [done|]. intros (_ & _ & Hc). congruence.
Qed.

Lemma processUser_error_kind (user : User) (w : world) :
  ∃ err w',
    processUser user w = (Ok err, w') ∧
    ∀ e, err = Some e → IsValidationError (Some e) = false.
Proof.
  unfold processUser.
  repeat match goal with |- context [if ?c then _ else _] => destruct c end.
  all: eexists _, _; split; [reflexivity|]; by intros e [= <-].
Qed.

(** X17. [handleUserSubmission] never panics, and after what [processUser]
    printed it prints one line: "User submitted successfully!" when
    [processUser] returned nil, and "An unexpected error occurred. Please
    try again later." for every error; the line "Please fix the validation
    issues and try again" is never printed. *)
Theorem handleUserSubmission_output (user : User) (w : world) :
  ∃ w',
    handleUserSubmission user w = (Ok tt, w') ∧
    stdout w' =
      stdout (processUser user w).2 +:+
      match (processUser user w).1 with
      | Ok None => "User submitted successfully!" +:+ newline
      | _ => "An unexpected error occurred. Please try again later." +:+ newline
      end.
Proof.
  destruct (processUser_error_kind user w) as (err & w1 & Hrun & Hkind).
  unfold handleUserSubmission, bind. rewrite Hrun. simpl.
  destruct err as [e|]; [|by eexists].
  rewrite (Hkind e eq_refl).
  destruct w1 as [n c t st out err]. by eexists.
Qed.

End UserFacts.

(** ** Chapter 10: aggregated, wrapped and sentinel errors *)

Module ErrorMoreFacts.
Import Go Chapter10 Chapter10More.

(** X18. [validateUserComprehensive] runs all three checks, in the order
    name, age, email.  It returns nil when none fails, and otherwise an
    [*AggregatedError] that holds one error per failed check, in that order,
    so that [ErrorCount] is the number of failed checks.  These errors were
    made by [fmt.Errorf]: [HasValidationErrors] is false on them, and the
    result is not a validation error for [IsValidationError] either.
    Nothing is printed. *)
Theorem validateUserComprehensive_collects (user : User) (w : world) :
  ∃ err w',
    validateUserComprehensive user w = (Ok err, w') ∧
    stdout w' = stdout w ∧ stderr w' = stderr w ∧
    (failed_checks user = [] → err = None) ∧
    (failed_checks user ≠ [] →
     ∃ a errs,
       err = Some (AggregatedErrorPtr a errs) ∧
       Error <$> errs = failed_checks user ∧
       ErrorCount errs = Z.of_nat (length (failed_checks user)) ∧
       HasValidationErrors errs = false ∧
       IsValidationError err = false).
Proof.
  unfold validateUserComprehensive, validateName, validateAge, validateEmail,
    failed_checks.
  destruct w as [n c t st out err0].
  destruct (Z.of_nat (String.length (Name user)) <? 2),
    (Age user <? 18), (strings_Contains (Email user) "@"); simpl.
  all: eexists _, _; split; [reflexivity|]; simpl.
  all: split_and!; try done.
  all: intros _; eexists _, _; by split_and!.
Qed.

(** X19. [findUser] returns an error and a nil user for the ids "",
    "nonexistent" and "admin", and for every other id a user with that id,
    the name "User <id>" and no error.  Each error is a new value: for
    [errors.Is] it matches no error that existed before the call, whatever
    its text. *)
Theorem findUser_errors_are_new (id : string) (w : world) :
  ∃ user err w',
    findUser id w = (Ok (user, err), w') ∧
    (err ≠ None ↔ id = "" ∨ id = "nonexistent" ∨ id = "admin") ∧
    (err ≠ None → user = None) ∧
    (err = None → ∃ a, user = Some (a, mkUser id ("User " +:+ id) 0 "")) ∧
    (∀ target, below (next w) target → err ≠ None →
               Is err (Some target) = false).
Proof.
  unfold findUser. destruct w as [n c t st out err0].
  destruct (String.eqb_spec id "") as [->|H1];
    [|destruct (String.eqb_spec id "nonexistent") as [->|H2];
      [|destruct (String.eqb_spec id "admin") as [->|H3]]].
  all: eexists _, _, _; split; [reflexivity|]; simpl.
  all: split_and!; try done; try (by eexists); try (intros _; by eauto).
  all: try (split; [done|by intros [?|[?|?]]]).
  all: try (split; [intros _; auto|done]).
  all: intros target Hbelow _; destruct target; simpl in *; try done.
  all: rewrite orb_false_r; apply Nat.eqb_neq; lia.
Qed.

Lemma findUser_errors_are_new_witness :
  ∃ user err w',
    findUser "nonexistent" (errors_New "not found" (frozen 0)).2 =
      (Ok (user, err), w') ∧
    Is err (Some (errorString 0%nat "not found")) = false.
Proof.
  destruct (findUser_errors_are_new "nonexistent"
              (errors_New "not found" (frozen 0)).2)
    as (user & err & w' & Hrun & Hiff & _ & _ & Hnew).
  exists user, err, w'. split; [exact Hrun|].
  apply Hnew; [simpl; lia|]. apply Hiff. right. left. reflexivity.
Defined.

(** X20. [processUserWithContext] returns nil exactly when the name has at
    least 2 bytes and the age is at least 18.  Otherwise it returns the
    error of the first failing check wrapped with a prefix that names the
    check: [errors.Unwrap] gives the inner error back, [errors.Is] finds it
    in the result, and the text of the result is the prefix followed by the
    text of the inner error. *)
Theorem processUserWithContext_wraps (user : User) (w : world) :
  ∃ err w',
    processUserWithContext user w = (Ok err, w') ∧
    (err = None ↔ 2 ≤ Z.of_nat (String.length (Name user)) ∧ 18 ≤ Age user) ∧
    (∀ e, err = Some e →
       ∃ inner,
         Unwrap (Some e) = Some inner ∧
         Is (Some e) (Some inner) = true ∧
         TypeOf inner = T_errorString ∧
         Error e =
           (if Z.of_nat (String.length (Name user)) <? 2
            then "name validation failed: " else "age validation failed: ")
           +:+ Error inner ∧
         Error inner =
           (if Z.of_nat (String.length (Name user)) <? 2
            then "name too short: " +:+ Name user +:+ " (minimum 2 characters)"
            else "age too young: " +:+ fmt_int (Age user) +:+ " (minimum 18)")).
Proof.
  unfold processUserWithContext, validateName, validateAge.
  destruct w as [n c t st out err0].
  destruct (Z.ltb_spec (Z.of_nat (String.length (Name user))) 2) as [Hn|Hn];
    [|destruct (Z.ltb_spec (Age user) 18) as [Ha|Ha]].
  all: eexists _, _; split; [reflexivity|]; simpl.
  all: split; [split; [done || (intros _; lia)|try done; intros [? ?]; lia]|].
  all: try done.
  all: intros e [= <-]; eexists; split_and!; try done.
  all: simpl; by rewrite ?Nat.eqb_refl.
Qed.

(** X21. [processUserWithErrorTypes] never returns nil, the simulated
    database connection always failing.  For a minor it returns a
    [*ValidationError] for the field "age" that carries the age.  For
    everyone else it returns a new error with the text "service temporarily
    unavailable": the database error is logged and not handed to the caller,
    for whom [IsDatabaseError] is false. *)
Theorem processUserWithErrorTypes_hides_database_error (user : User) (w : world) :
  ∃ e w',
    processUserWithErrorTypes user w = (Ok (Some e), w') ∧
    (Age user < 18 →
     e = ValidationErrorPtr (next w)
           (ValidationError.mk "age" "must be at least 18" (AnyInt (Age user))) ∧
     IsValidationError (Some e) = true ∧ stderr w' = stderr w) ∧
    (18 ≤ Age user →
     Error e = "service temporarily unavailable" ∧
     IsDatabaseError (Some e) = false ∧ IsValidationError (Some e) = false).
Proof.
  unfold processUserWithErrorTypes, validateUserAge, connectToDatabase, log_Printf.
  destruct w as [n c t st out err0].
  destruct (Z.ltb_spec (Age user) 18) as [Ha|Ha].
  all: eexists _, _; split; [reflexivity|]; simpl.
  all: split; [intros ?|intros ?]; try lia; by split_and!.
Qed.

End ErrorMoreFacts.

(** ** Chapter 10: retries *)

Module RetryFacts.
Import Go Chapter10.



End RetryFacts.
